(** * Speech graph analysis: a shallow embedding of [graph_analyzer.py]

    The analyzer turns a transcript into a directed, weighted
    word-adjacency graph and reports structural metrics of it.

    Conventions of the embedding.
    - Text is a [string] of ASCII characters; the tokenizer below is the
      restriction of [preprocess_text] to ASCII input.
    - Counts obtained with [len] or [number_of_nodes] are [nat]; the edge
      attribute [weight], which the code increments, is a [Z].
    - A number obtained by true division [/] is kept as the exact
      rational in [Q]; the integer [0] of the degenerate branches is the
      rational [0].  The program holds the binary64 float nearest to that
      rational; where rounding matters, in the sums of the aggregate, the
      arithmetic is read exactly, in binary64, and with the numbers of
      Python (exact integers, binary64 floats).
    - The graph library (networkx) is not part of the repository; the
      operations the analyzer calls on it are modelled in [Module nx] by
      their documented behaviour, on insertion-ordered stores. *)

From Stdlib Require Import String Ascii List Bool Arith ZArith QArith.
From Stdlib Require Import Floats Uint63.
From Stdlib Require Import Lia Lqa Relations.
Import ListNotations.

Local Open Scope string_scope.
Local Open Scope list_scope.
Local Open Scope nat_scope.

(** ** Tokenizer: [preprocess_text] *)

Definition between (lo hi : nat) (c : ascii) : bool :=
  let n := nat_of_ascii c in (lo <=? n) && (n <=? hi).

(** [str.lower] on an ASCII character. *)
Definition lower_char (c : ascii) : ascii :=
  if between 65 90 c then ascii_of_nat (nat_of_ascii c + 32) else c.

Definition is_digit (c : ascii) : bool := between 48 57 c.

(** [\w] on ASCII: letters, digits and underscore. *)
Definition is_word_char (c : ascii) : bool :=
  between 97 122 c || between 65 90 c || is_digit c || (nat_of_ascii c =? 95).

(** [\s], and the separators of [str.split()]: TAB, LF, VT, FF, CR,
    the four separators FS..US, and space. *)
Definition is_space (c : ascii) : bool :=
  between 9 13 c || between 28 31 c || (nat_of_ascii c =? 32).

Definition is_apostrophe (c : ascii) : bool := nat_of_ascii c =? 39.

(** [re.sub(r"[^\w\s']", '', text)] keeps exactly these characters. *)
Definition kept_char (c : ascii) : bool :=
  is_word_char c || is_space c || is_apostrophe c.

(** [text.split()]: maximal runs of non-space characters, in order.
    [cur] is the run being read, most recent character first. *)
Fixpoint split_runs (cur : list ascii) (l : list ascii) : list (list ascii) :=
  match l with
  | [] => match cur with [] => [] | _ => [rev cur] end
  | c :: r =>
      if is_space c
      then match cur with
           | [] => split_runs [] r
           | _ => rev cur :: split_runs [] r
           end
      else split_runs (c :: cur) r
  end.

Definition split (l : list ascii) : list (list ascii) := split_runs [] l.

(** [w.isdigit()] for a non-empty word. *)
Definition isdigit (w : list ascii) : bool :=
  match w with [] => false | _ => forallb is_digit w end.

Definition preprocess_text (text : string) : list string :=
  let text := map lower_char (list_ascii_of_string text) in
  let text := filter kept_char text in
  let words := split text in
  let words := filter (fun w => (1 <? length w) && negb (isdigit w)) words in
  map string_of_list_ascii words.

(** ** The graph library *)

Module nx.

Definition node := string.

Definition edge_key := (node * node)%type.

Definition key_eqb (a b : edge_key) : bool :=
  String.eqb (fst a) (fst b) && String.eqb (snd a) (snd b).

Definition mem (n : node) (l : list node) : bool := existsb (String.eqb n) l.

(** A [DiGraph]: the nodes in insertion order, and the edges with their
    [weight] attribute in insertion order.  The library stores the edges
    as successor and predecessor dictionaries per node; both are read off
    [edge_list] here. *)
Record DiGraph := mkDiGraph {
  node_list : list node;
  edge_list : list (edge_key * Z)
}.

Definition empty : DiGraph := mkDiGraph [] [].

Definition has_edge (G : DiGraph) (u v : node) : bool :=
  existsb (fun e => key_eqb (fst e) (u, v)) (edge_list G).

Definition add_node (ns : list node) (n : node) : list node :=
  if mem n ns then ns else ns ++ [n].

Definition set_weight (k : edge_key) (f : Z -> Z) (es : list (edge_key * Z))
  : list (edge_key * Z) :=
  map (fun e => if key_eqb (fst e) k then (fst e, f (snd e)) else e) es.

(** [G.add_edge(u, v, weight=w)]: both end points become nodes if they
    are not yet, [u] first; the edge is created, or its weight
    overwritten. *)
Definition add_edge (G : DiGraph) (u v : node) (w : Z) : DiGraph :=
  let ns := add_node (add_node (node_list G) u) v in
  if has_edge G u v
  then mkDiGraph ns (set_weight (u, v) (fun _ => w) (edge_list G))
  else mkDiGraph ns (edge_list G ++ [((u, v), w)]).

(** [G[u][v]['weight'] += 1] on an existing edge. *)
Definition incr_weight (G : DiGraph) (u v : node) : DiGraph :=
  mkDiGraph (node_list G) (set_weight (u, v) (fun w => (w + 1)%Z) (edge_list G)).

Definition number_of_nodes (G : DiGraph) : nat := length (node_list G).

Definition number_of_edges (G : DiGraph) : nat := length (edge_list G).

(** [G.edges(data=True)]: for each node in node order, its out-edges in
    the order they were created. *)
Definition edges (G : DiGraph) : list (edge_key * Z) :=
  flat_map (fun n => filter (fun e => String.eqb (fst (fst e)) n) (edge_list G))
           (node_list G).

Definition successors (G : DiGraph) (u : node) : list node :=
  map (fun e => snd (fst e))
      (filter (fun e => String.eqb (fst (fst e)) u) (edge_list G)).

Definition predecessors (G : DiGraph) (v : node) : list node :=
  map (fun e => fst (fst e))
      (filter (fun e => String.eqb (snd (fst e)) v) (edge_list G)).

Definition out_degree (G : DiGraph) (n : node) : nat := length (successors G n).

Definition in_degree (G : DiGraph) (n : node) : nat := length (predecessors G n).

(** The degree of a node of a directed graph is in-degree plus
    out-degree: a self-loop counts twice. *)
Definition degree (G : DiGraph) (n : node) : nat := in_degree G n + out_degree G n.

(** [dict(G.degree())] as an association list in node order. *)
Definition degree_view (G : DiGraph) : list (node * nat) :=
  map (fun n => (n, degree G n)) (node_list G).

(** True division of two counts. *)
Definition true_div (a b : nat) : Q :=
  (inject_Z (Z.of_nat a) / inject_Z (Z.of_nat b))%Q.

(** [nx.density] of a directed graph: self-loops are counted among the
    edges. *)
Definition density (G : DiGraph) : Q :=
  let n := number_of_nodes G in
  let m := number_of_edges G in
  if (m =? 0) || (n <=? 1) then 0%Q else true_div m (n * (n - 1)).

Definition is_selfloop (e : edge_key * Z) : bool :=
  String.eqb (fst (fst e)) (snd (fst e)).

Definition number_of_selfloops (G : DiGraph) : nat :=
  length (filter is_selfloop (edge_list G)).

(** *** Elementary cycles

    [nx.simple_cycles] yields every elementary cycle once.  A cycle is
    listed here from its earliest node in node order: [cycles_from] walks
    the paths that leave [root], stay among the nodes after it and repeat
    no node, and reports a path whenever an edge leads back to [root].
    [path] holds the walk so far, current node first. *)
Fixpoint cycles_from (G : DiGraph) (fuel : nat) (root : node)
    (allowed path : list node) : list (list node) :=
  match fuel, path with
  | S f, cur :: _ =>
      flat_map
        (fun v =>
           if String.eqb v root then [rev path]
           else if mem v allowed && negb (mem v path)
                then cycles_from G f root allowed (v :: path)
                else [])
        (successors G cur)
  | _, _ => []
  end.

Fixpoint cycles_rooted (G : DiGraph) (roots : list node) : list (list node) :=
  match roots with
  | [] => []
  | r :: rest =>
      cycles_from G (number_of_nodes G) r rest [r] ++ cycles_rooted G rest
  end.

Definition simple_cycles (G : DiGraph) : list (list node) :=
  cycles_rooted G (node_list G).

(** *** Reachability and components *)

Section Reach.

Variable succs : node -> list node.

(** One round of search: the set, and everything one edge away. *)
Definition expand (s : list node) : list node :=
  nodup string_dec (s ++ flat_map succs s).

Fixpoint closure (fuel : nat) (s : list node) : list node :=
  match fuel with
  | 0 => s
  | S f => expand (closure f s)
  end.

(** Everything reachable from [v] in a graph of [n] nodes. *)
Definition reach_set (n : nat) (v : node) : list node := closure n [v].

Definition reachable (n : nat) (u v : node) : bool := mem v (reach_set n u).

End Reach.

(** The classes of [same] among the nodes [vs]: a node opens a class
    unless it falls into the class of an earlier representative in
    [reps]. *)
Fixpoint classes (same : node -> node -> bool) (vs reps todo : list node)
  : list (list node) :=
  match todo with
  | [] => []
  | v :: rest =>
      if existsb (fun r => same r v) reps
      then classes same vs reps rest
      else filter (same v) vs :: classes same vs (v :: reps) rest
  end.

Definition strongly_connected (G : DiGraph) (u v : node) : bool :=
  let n := number_of_nodes G in
  reachable (successors G) n u v && reachable (successors G) n v u.

(** [nx.strongly_connected_components]: the node sets of the maximal
    subgraphs in which every node reaches every other. *)
Definition strongly_connected_components (G : DiGraph) : list (list node) :=
  classes (strongly_connected G) (node_list G) [] (node_list G).

(** An undirected [Graph]: nodes, and each edge stored once as a pair. *)
Record Graph := mkGraph {
  g_nodes : list node;
  g_edges : list edge_key
}.

Definition g_has_edge (es : list edge_key) (u v : node) : bool :=
  existsb (fun k => key_eqb k (u, v) || key_eqb k (v, u)) es.

(** [G.to_undirected()]: the same nodes; [u - v] is an edge when [u -> v]
    or [v -> u] is. *)
Definition to_undirected (G : DiGraph) : Graph :=
  mkGraph (node_list G)
    (fold_left
       (fun es e => if g_has_edge es (fst (fst e)) (snd (fst e)) then es
                    else es ++ [fst e])
       (edges G) []).

Definition neighbors (U : Graph) (u : node) : list node :=
  flat_map
    (fun k => if String.eqb (fst k) u then [snd k]
              else if String.eqb (snd k) u then [fst k] else [])
    (g_edges U).

Definition connected (U : Graph) (u v : node) : bool :=
  reachable (neighbors U) (length (g_nodes U)) u v.

(** [nx.connected_components] of an undirected graph. *)
Definition connected_components (U : Graph) : list (list node) :=
  classes (connected U) (g_nodes U) [] (g_nodes U).

End nx.

(** ** The analyzer *)

Record SpeechGraphAnalyzer := mkAnalyzer {
  window_size : nat;
  step_size : nat
}.

(** [SpeechGraphAnalyzer(window_size=30, step_size=3)], also the defaults. *)
Definition analyzer : SpeechGraphAnalyzer := mkAnalyzer 30 3.

Record Loops := mkLoops { L1 : nat; L2 : nat; L3 : nat }.

(** The dictionary of [analyze_window].  The keys [window_start] and
    [window_end] are absent until [sliding_window_analysis] sets them. *)
Record WindowMetrics := mkMetrics {
  nodes : nat;
  edges : nat;
  lsc : nat;
  lcc : nat;
  loops : Loops;
  parallel_edges : nat;
  density : Q;
  avg_degree : Q;
  window_start : option nat;
  window_end : option nat
}.

Definition build_speech_graph (words : list string) : nx.DiGraph :=
  fold_left
    (fun G i =>
       let source := nth i words "" in
       let target := nth (i + 1) words "" in
       if nx.has_edge G source target
       then nx.incr_weight G source target
       else nx.add_edge G source target 1%Z)
    (seq 0 (length words - 1))
    nx.empty.

(** [len(max(components, key=len))] *)
Definition largest (components : list (list nx.node)) : nat :=
  list_max (map (@length nx.node) components).

Definition calculate_lsc (G : nx.DiGraph) : nat :=
  if nx.number_of_nodes G =? 0 then 0
  else match nx.strongly_connected_components G with
       | [] => 0
       | strongly_connected => largest strongly_connected
       end.

Definition calculate_lcc (G : nx.DiGraph) : nat :=
  if nx.number_of_nodes G =? 0 then 0
  else
    let G_undirected := nx.to_undirected G in
    match nx.connected_components G_undirected with
    | [] => 0
    | connected => largest connected
    end.

Definition count_loops (G : nx.DiGraph) : Loops :=
  let cycles := nx.simple_cycles G in
  mkLoops (nx.number_of_selfloops G)
          (length (filter (fun cycle => length cycle =? 2) cycles))
          (length (filter (fun cycle => length cycle =? 3) cycles)).

Definition count_parallel_edges (G : nx.DiGraph) : nat :=
  length (filter (fun e => (1 <? snd e)%Z) (nx.edges G)).

Definition sum_nat (l : list nat) : nat := fold_right Nat.add 0 l.

Definition zero_metrics : WindowMetrics :=
  mkMetrics 0 0 0 0 (mkLoops 0 0 0) 0 0%Q 0%Q None None.

Definition analyze_window (words : list string) : WindowMetrics :=
  match words with
  | [] => zero_metrics
  | _ =>
      let G := build_speech_graph words in
      mkMetrics
        (nx.number_of_nodes G)
        (nx.number_of_edges G)
        (calculate_lsc G)
        (calculate_lcc G)
        (count_loops G)
        (count_parallel_edges G)
        (if 0 <? nx.number_of_nodes G then nx.density G else 0%Q)
        (if 0 <? nx.number_of_nodes G
         then nx.true_div (sum_nat (map snd (nx.degree_view G)))
                          (nx.number_of_nodes G)
         else 0%Q)
        None None
  end.

(** [range(0, stop, step)] for a positive [stop]; a zero step raises
    [ValueError], which is [None] here. *)
Definition range_step (stop step : nat) : option (list nat) :=
  if step =? 0 then None
  else Some (map (fun k => k * step) (seq 0 ((stop + step - 1) / step))).

Definition set_offsets (m : WindowMetrics) (a b : nat) : WindowMetrics :=
  mkMetrics (nodes m) (edges m) (lsc m) (lcc m) (loops m) (parallel_edges m)
            (density m) (avg_degree m) (Some a) (Some b).

Definition sliding_window_analysis (self : SpeechGraphAnalyzer) (text : string)
  : option (list WindowMetrics) :=
  let words := preprocess_text text in
  if length words <? window_size self
  then Some [analyze_window words]
  else
    match range_step (length words - window_size self + 1) (step_size self) with
    | None => None
    | Some starts =>
        Some (map
                (fun i =>
                   let window_words := firstn (window_size self) (skipn i words) in
                   let window_metrics := analyze_window window_words in
                   set_offsets window_metrics i (i + window_size self))
                starts)
    end.

(** *** Visualization *)

Record VizNode := mkVizNode {
  id : nat;
  word : string;
  viz_degree : nat;
  viz_in_degree : nat;
  viz_out_degree : nat
}.

Record VizLink := mkVizLink {
  source : nat;
  target : nat;
  weight : Z
}.

Record Visualization := mkViz {
  viz_nodes : list VizNode;
  viz_links : list VizLink
}.

(** [node_to_index[u]]; every end point of an edge is a node, so the
    lookup never misses on a graph of the library. *)
Fixpoint lookup_index (node_to_index : list (nx.node * nat)) (u : nx.node) : nat :=
  match node_to_index with
  | [] => 0
  | (n, idx) :: rest => if String.eqb n u then idx else lookup_index rest u
  end.

Definition generate_visualization_data (words : list string) : Visualization :=
  let G := build_speech_graph words in
  let node_to_index :=
    combine (nx.node_list G) (seq 0 (length (nx.node_list G))) in
  mkViz
    (map (fun ni =>
            mkVizNode (snd ni) (fst ni)
                      (nx.degree G (fst ni))
                      (nx.in_degree G (fst ni))
                      (nx.out_degree G (fst ni)))
         node_to_index)
    (map (fun e =>
            mkVizLink (lookup_index node_to_index (fst (fst e)))
                      (lookup_index node_to_index (snd (fst e)))
                      (snd e))
         (nx.edges G)).

(** *** Aggregation *)

Definition of_nat (n : nat) : Q := inject_Z (Z.of_nat n).

(** [w[key]] for the numeric keys of a window dictionary; [None] when the
    key is absent. *)
Definition get (w : WindowMetrics) (key : string) : option Q :=
  if String.eqb key "nodes" then Some (of_nat (nodes w))
  else if String.eqb key "edges" then Some (of_nat (edges w))
  else if String.eqb key "lsc" then Some (of_nat (lsc w))
  else if String.eqb key "lcc" then Some (of_nat (lcc w))
  else if String.eqb key "parallel_edges" then Some (of_nat (parallel_edges w))
  else if String.eqb key "density" then Some (density w)
  else if String.eqb key "avg_degree" then Some (avg_degree w)
  else if String.eqb key "window_start" then option_map of_nat (window_start w)
  else if String.eqb key "window_end" then option_map of_nat (window_end w)
  else None.

Definition keys : list string :=
  ["nodes"; "edges"; "lsc"; "lcc"; "density"; "avg_degree"].

Section Aggregation.

(** The aggregate is written once over the arithmetic it uses, so that
    it can be read with exact numbers and with machine numbers. *)
Variable N : Type.
Variable zero : N.
Variable plus : N -> N -> N.
Variable div : N -> N -> N.
Variable of_len : nat -> N.
Variable ltb : N -> N -> bool.
Variable item : WindowMetrics -> string -> option N.

Definition py_sum (values : list N) : N := fold_left plus values zero.

(** [min] and [max] keep the earlier of two equal values. *)
Definition py_min (values : list N) : N :=
  match values with
  | [] => zero
  | x :: rest => fold_left (fun m y => if ltb y m then y else m) rest x
  end.

Definition py_max (values : list N) : N :=
  match values with
  | [] => zero
  | x :: rest => fold_left (fun m y => if ltb m y then y else m) rest x
  end.

(** The aggregate is a dictionary from names to numbers, kept as an
    association list in insertion order. *)
Definition aggregate_with (windows : list WindowMetrics) : list (string * N) :=
  match windows with
  | [] => []
  | _ =>
      flat_map
        (fun key =>
           let values :=
             flat_map (fun w => match item w key with
                                | Some x => [x]
                                | None => []
                                end) windows in
           [ (String.append "avg_" key,
              match values with
              | [] => zero
              | _ => div (py_sum values) (of_len (length values))
              end);
             (String.append "min_" key,
              match values with [] => zero | _ => py_min values end);
             (String.append "max_" key,
              match values with [] => zero | _ => py_max values end) ])
        keys
  end.

End Aggregation.

Definition Qlt_bool (x y : Q) : bool := negb (Qle_bool y x).

(** [_aggregate_window_metrics] in exact arithmetic. *)
Definition _aggregate_window_metrics (windows : list WindowMetrics)
  : list (string * Q) :=
  aggregate_with Q 0%Q Qplus Qdiv of_nat Qlt_bool get windows.

(** The numbers the program holds are binary64 floats.  A count (below
    2^53, as every count of a transcript is) is held exactly; a quotient
    of two counts is held as the float nearest to it, which is what the
    division of the two counts returns. *)
Definition float_of_Z (z : Z) : float := PrimFloat.of_uint63 (Uint63.of_Z z).

Definition binary64 (q : Q) : float :=
  PrimFloat.div (float_of_Z (Qnum q)) (float_of_Z (Zpos (Qden q))).

(** [_aggregate_window_metrics] in binary64 arithmetic. *)
Definition _aggregate_window_metrics_binary64 (windows : list WindowMetrics)
  : list (string * float) :=
  aggregate_with float (float_of_Z 0) PrimFloat.add PrimFloat.div
                 (fun n => float_of_Z (Z.of_nat n)) PrimFloat.ltb
                 (fun w key => option_map binary64 (get w key)) windows.

(** *** The numbers of the aggregate as Python has them

    The fields [nodes], [edges], [lsc] and [lcc] are integers: Python
    adds and compares them exactly and divides their sum once by the
    count.  That one quotient of two integers is kept as the exact
    rational, of which the program holds the nearest float.  The fields
    [density] and [avg_degree] are floats (the integer [0] of a
    degenerate window counts as the float zero, which has the same
    value): they are added and divided in binary64. *)
Inductive number : Type :=
| PyInt (z : Z)
| PyQuotient (q : Q)
| PyFloat (f : float).

Definition to_float (x : number) : float :=
  match x with
  | PyInt z => float_of_Z z
  | PyQuotient q => binary64 q
  | PyFloat f => f
  end.

Definition number_add (x y : number) : number :=
  match x, y with
  | PyInt a, PyInt b => PyInt (a + b)
  | _, _ => PyFloat (PrimFloat.add (to_float x) (to_float y))
  end.

Definition number_div (x y : number) : number :=
  match x, y with
  | PyInt a, PyInt b => PyQuotient (inject_Z a / inject_Z b)
  | _, _ => PyFloat (PrimFloat.div (to_float x) (to_float y))
  end.

Definition number_ltb (x y : number) : bool :=
  match x, y with
  | PyInt a, PyInt b => (a <? b)%Z
  | _, _ => PrimFloat.ltb (to_float x) (to_float y)
  end.

(** [w[key]] as a Python number. *)
Definition item (w : WindowMetrics) (key : string) : option number :=
  if String.eqb key "nodes" then Some (PyInt (Z.of_nat (nodes w)))
  else if String.eqb key "edges" then Some (PyInt (Z.of_nat (edges w)))
  else if String.eqb key "lsc" then Some (PyInt (Z.of_nat (lsc w)))
  else if String.eqb key "lcc" then Some (PyInt (Z.of_nat (lcc w)))
  else if String.eqb key "parallel_edges"
  then Some (PyInt (Z.of_nat (parallel_edges w)))
  else if String.eqb key "density" then Some (PyFloat (binary64 (density w)))
  else if String.eqb key "avg_degree"
  then Some (PyFloat (binary64 (avg_degree w)))
  else if String.eqb key "window_start"
  then option_map (fun n => PyInt (Z.of_nat n)) (window_start w)
  else if String.eqb key "window_end"
  then option_map (fun n => PyInt (Z.of_nat n)) (window_end w)
  else None.

(** [_aggregate_window_metrics] with the numbers Python computes. *)
Definition _aggregate_window_metrics_reported (windows : list WindowMetrics)
  : list (string * number) :=
  aggregate_with number (PyInt 0) number_add number_div
                 (fun n => PyInt (Z.of_nat n)) number_ltb item windows.



Fixpoint dict_find {N : Type} (d : list (string * N)) (k : string) : option N :=
  match d with
  | [] => None
  | (k', x) :: rest => if String.eqb k' k then Some x else dict_find rest k
  end.

(** *** Full transcript *)

Record AnalysisResult := mkResult {
  full_metrics : WindowMetrics;
  window_metrics : list WindowMetrics;
  aggregated_metrics : list (string * Q);
  visualization : Visualization;
  word_count : nat;
  unique_words : nat;
  lexical_diversity : Q
}.

Definition zero_result : AnalysisResult :=
  mkResult zero_metrics [] [] (mkViz [] []) 0 0 0%Q.

Definition analyze_full_transcript (self : SpeechGraphAnalyzer) (text : string)
  : option AnalysisResult :=
  let words := preprocess_text text in
  match words with
  | [] => Some zero_result
  | _ =>
      let full_graph := build_speech_graph words in
      let full_metrics := analyze_window words in
      match (if window_size self <=? length words
             then sliding_window_analysis self text
             else Some [])
      with
      | None => None
      | Some window_metrics =>
          let avg_metrics := _aggregate_window_metrics window_metrics in
          let viz_data := generate_visualization_data words in
          Some (mkResult
                  full_metrics
                  window_metrics
                  avg_metrics
                  viz_data
                  (length words)
                  (nx.number_of_nodes full_graph)
                  (if 0 <? length words
                   then nx.true_div (nx.number_of_nodes full_graph) (length words)
                   else 0%Q))
      end
  end.

(** ** The service: [main.py]

    The two POST handlers, without logging.  A handler returns its
    response or raises an [HTTPException]; both outcomes are values
    here. *)

Record AnalysisRequest := mkRequest {
  text : string;
  participant_id : option string;
  session_id : option string
}.

Inductive Outcome (A : Type) : Type :=
| AnalysisResponse (success : bool) (data : A) (message : string)
| HTTPException (status_code : nat) (detail : string).

Arguments AnalysisResponse {A} success data message.
Arguments HTTPException {A} status_code detail.

Fixpoint lstrip (l : list ascii) : list ascii :=
  match l with
  | c :: r => if is_space c then lstrip r else l
  | [] => []
  end.

(** [str.strip()] *)
Definition strip (s : string) : list ascii :=
  rev (lstrip (rev (lstrip (list_ascii_of_string s)))).

(** [str(e)] for the [ValueError] of [range] with a zero step, the one
    exception the analysis can raise. *)
Definition zero_step_message : string := "range() arg 3 must not be zero".

Definition analyze_speech (request : AnalysisRequest) : Outcome AnalysisResult :=
  if (String.length (text request) =? 0) || (length (strip (text request)) <? 5)
  then HTTPException 400
         "Text too short for analysis (minimum 5 characters required)"
  else
    match analyze_full_transcript analyzer (text request) with
    | Some result =>
        AnalysisResponse true result "Analysis completed successfully"
    | None =>
        HTTPException 500 (String.append "Analysis failed: " zero_step_message)
    end.

Record RealtimeData := mkRealtime {
  rt_visualization : Visualization;
  rt_metrics : WindowMetrics;
  rt_word_count : nat
}.

Definition analyze_realtime (request : AnalysisRequest) : Outcome RealtimeData :=
  if String.length (text request) =? 0
  then HTTPException 400 "Text is required"
  else
    let words := preprocess_text (text request) in
    let viz_data := generate_visualization_data words in
    let quick_metrics := analyze_window words in
    AnalysisResponse true
      (mkRealtime viz_data quick_metrics (length words))
      "Real-time analysis completed".

(** * Vocabulary of the properties *)

(** The edges of a graph without their weights. *)
Definition keys_of (G : nx.DiGraph) : list nx.edge_key := map fst (nx.edge_list G).

(** The invariants the library maintains: a node occurs once, an edge
    occurs once, and the end points of every edge are nodes. *)
Record wf (G : nx.DiGraph) : Prop := mk_wf {
  wf_nodes : NoDup (nx.node_list G);
  wf_keys : NoDup (keys_of G);
  wf_ends : forall u v, In (u, v) (keys_of G) ->
                        In u (nx.node_list G) /\ In v (nx.node_list G)
}.

(** One turn of the loop of [build_speech_graph]. *)
Definition add_pair (G : nx.DiGraph) (p : string * string) : nx.DiGraph :=
  if nx.has_edge G (fst p) (snd p)
  then nx.incr_weight G (fst p) (snd p)
  else nx.add_edge G (fst p) (snd p) 1%Z.

(** The adjacent pairs [(words[i], words[i+1])]. *)
Definition pairs (words : list string) : list (string * string) :=
  combine words (tl words).

(** [n] is the first or the second word of one of the pairs. *)
Definition end_of (ps : list (string * string)) (n : string) : Prop :=
  exists p, In p ps /\ (n = fst p \/ n = snd p).

(** The number of distinct tokens of a sequence. *)
Definition distinct (words : list string) : nat :=
  length (nodup string_dec words).

(** A key from a node to itself. *)
Definition is_diag (k : nx.edge_key) : bool := String.eqb (fst k) (snd k).

(** One turn of the fold of [nx.to_undirected]. *)
Definition collapse (es : list nx.edge_key) (e : nx.edge_key * Z) :=
  if nx.g_has_edge es (fst (fst e)) (snd (fst e)) then es else es ++ [fst e].

(** One edge, read off a successor function. *)
Definition step_rel (succs : nx.node -> list nx.node) (u v : nx.node) : Prop :=
  In v (succs u).

(** A path: zero or more edges. *)
Definition path (succs : nx.node -> list nx.node) : nx.node -> nx.node -> Prop :=
  clos_refl_trans nx.node (step_rel succs).

(** A node set that no edge leaves. *)
Definition closed (succs : nx.node -> list nx.node) (s : list nx.node) : Prop :=
  forall u x, In u s -> In x (succs u) -> In x s.

(** The positions [i] with [words[i] == words[i+1]]. *)
Definition adjacent_equal (words : list string) : list nat :=
  filter (fun i => String.eqb (nth i words "") (nth (i + 1) words ""))
         (seq 0 (length words - 1)).

(** The distinct tokens that are somewhere immediately followed by
    themselves. *)
Definition repeated_tokens (words : list string) : list string :=
  nodup string_dec (map (fun i => nth i words "") (adjacent_equal words)).

(** The exact sum, minimum and maximum. *)
Definition sum_exact : list Q -> Q := py_sum Q 0%Q Qplus.

Definition min_exact : list Q -> Q := py_min Q 0%Q Qlt_bool.

Definition max_exact : list Q -> Q := py_max Q 0%Q Qlt_bool.

(** What one key contributes to the aggregate. *)
Definition values_of (windows : list WindowMetrics) (key : string) : list Q :=
  flat_map (fun w => match get w key with Some x => [x] | None => [] end) windows.

Definition avg_of (values : list Q) : Q :=
  match values with
  | [] => 0%Q
  | _ => (sum_exact values / of_nat (length values))%Q
  end.

Definition min_of (values : list Q) : Q :=
  match values with [] => 0%Q | _ => min_exact values end.

Definition max_of (values : list Q) : Q :=
  match values with [] => 0%Q | _ => max_exact values end.

(** A text of 29 tokens. *)
Definition fox_text : string :=
  "Well, the quick brown fox jumps over the lazy dog; then the cat sat on the mat while the bird sang in the tree near the old barn today.".

(** Thirty distinct words, then the first twelve again: 42 tokens, and
    five windows of thirty distinct words each. *)
Definition harbour_text : string :=
  "we went down to the old harbour early this morning and watched seven small fishing boats leave while grey gulls circled over cold water near that long stone pier again we went down to the old harbour early this morning and watched".

(** Whether the binary64 aggregate reports a mean below the minimum
    for [key]. *)
Definition mean_below_min (windows : list WindowMetrics) (key : string) : bool :=
  match dict_find (_aggregate_window_metrics_binary64 windows)
                  (String.append "avg_" key),
        dict_find (_aggregate_window_metrics_binary64 windows)
                  (String.append "min_" key)
  with
  | Some av, Some mn => PrimFloat.ltb av mn
  | _, _ => false
  end.

(** The weight stored under a key, if any. *)
Definition lookup_weight (es : list (nx.edge_key * Z)) (k : nx.edge_key) : option Z :=
  option_map snd (find (fun e => nx.key_eqb (fst e) k) es).

(** [G[u][v]['weight']], or [None] when [u -> v] is not an edge. *)
Definition edge_weight (G : nx.DiGraph) (u v : nx.node) : option Z :=
  lookup_weight (nx.edge_list G) (u, v).

Definition pair_dec (a b : string * string) : {a = b} + {a <> b}.
Proof. decide equality; apply string_dec. Defined.

(** How often [u] is immediately followed by [v]. *)
Definition follows (words : list string) (u v : string) : nat :=
  count_occ pair_dec (pairs words) (u, v).

(** The words in the order of their first occurrence. *)
Definition first_seen (words : list string) : list string :=
  fold_left nx.add_node words [].

Definition total_weight (es : list (nx.edge_key * Z)) : Z :=
  fold_right (fun e acc => (snd e + acc)%Z) 0%Z es.

(** The characters a token can hold: lowercase letters, digits, the
    underscore and the apostrophe. *)
Definition token_char (c : ascii) : bool :=
  between 97 122 c || is_digit c || (nat_of_ascii c =? 95) || is_apostrophe c.

(** The characters of words joined by single spaces. *)
Fixpoint join_runs (runs : list (list ascii)) : list ascii :=
  match runs with
  | [] => []
  | [r] => r
  | r :: rest => r ++ " "%char :: join_runs rest
  end.

(** The nodes after one turn of the loop of [build_speech_graph]. *)
Definition add_ends (ns : list nx.node) (p : string * string) : list nx.node :=
  nx.add_node (nx.add_node ns (fst p)) (snd p).

(** The adjacent pairs that occur more than once, each listed once. *)
Definition repeated_pairs (words : list string) : list (string * string) :=
  filter (fun k => 1 <? count_occ pair_dec (pairs words) k)
         (nodup pair_dec (pairs words)).

(** A token character or a space. *)
Definition plain_char (c : ascii) : Prop := token_char c = true \/ c = " "%char.

(** The pairs [(x, y)] with [x] before [y] in the list: every unordered
    pair of distinct elements of a duplicate-free list, once. *)
Fixpoint ordered_pairs (l : list nx.node) : list (nx.node * nx.node) :=
  match l with
  | [] => []
  | x :: rest => map (pair x) rest ++ ordered_pairs rest
  end.

(** Two nodes with an edge in each direction. *)
Definition mutual (G : nx.DiGraph) (p : nx.node * nx.node) : bool :=
  nx.has_edge G (fst p) (snd p) && nx.has_edge G (snd p) (fst p).

(** The number of cycles of length 2 in a list of cycles. *)
Definition two_cycles (cycles : list (list nx.node)) : nat :=
  length (filter (fun cycle => length cycle =? 2) cycles).

(** The position of the first occurrence of [u] in [l]. *)
Fixpoint index_in (u : string) (l : list string) : nat :=
  match l with
  | [] => 0
  | a :: r => if String.eqb a u then 0 else S (index_in u r)
  end.

(** A text of 7-bit characters, the texts on which the tokenizer of this
    file is the tokenizer of the program. *)
Definition ascii_text (text : string) : Prop :=
  forallb (fun c => nat_of_ascii c <? 128) (list_ascii_of_string text) = true.




(** Whether the binary64 aggregate reports a mean above the maximum
    for [key]. *)
Definition mean_above_max (windows : list WindowMetrics) (key : string) : bool :=
  match dict_find (_aggregate_window_metrics_binary64 windows)
                  (String.append "avg_" key),
        dict_find (_aggregate_window_metrics_binary64 windows)
                  (String.append "max_" key)
  with
  | Some av, Some mx => PrimFloat.ltb mx av
  | _, _ => false
  end.

(** Whether the three numbers reported for a field are in order, as
    the floats the program holds. *)
Definition reported_in_order (windows : list WindowMetrics) (key : string) : bool :=
  match dict_find (_aggregate_window_metrics_reported windows)
                  (String.append "min_" key),
        dict_find (_aggregate_window_metrics_reported windows)
                  (String.append "avg_" key),
        dict_find (_aggregate_window_metrics_reported windows)
                  (String.append "max_" key)
  with
  | Some mn, Some av, Some mx =>
      PrimFloat.leb (to_float mn) (to_float av)
      && PrimFloat.leb (to_float av) (to_float mx)
  | _, _, _ => false
  end.

(** Thirty distinct words, repeated in a cycle up to 129 tokens: 34
    windows of thirty distinct words each. *)
Definition harbour_cycle_text : string :=
  "we went down to the old harbour early this morning and watched seven small fishing boats leave while grey gulls circled over cold water near that long stone pier again we went down to the old harbour early this morning and watched seven small fishing boats leave while grey gulls circled over cold water near that long stone pier again we went down to the old harbour early this morning and watched seven small fishing boats leave while grey gulls circled over cold water near that long stone pier again we went down to the old harbour early this morning and watched seven small fishing boats leave while grey gulls circled over cold water near that long stone pier again we went down to the old harbour early this".

(** * Properties *)

(** ** Keys and membership *)

Lemma key_eqb_eq (a b : nx.edge_key) : nx.key_eqb a b = true <-> a = b.
Proof.
  unfold nx.key_eqb. destruct a as [a1 a2], b as [b1 b2]; simpl.
  rewrite andb_true_iff, !String.eqb_eq. split.
  - intros [-> ->]; reflexivity.
  - intros H; inversion H; auto.
Qed.

Lemma mem_In (n : nx.node) (l : list nx.node) : nx.mem n l = true <-> In n l.
Proof.
  unfold nx.mem. rewrite existsb_exists. split.
  - intros [x [Hx He]]. apply String.eqb_eq in He. subst; assumption.
  - intros H. exists n. split; [assumption | apply String.eqb_refl].
Qed.

Lemma has_edge_In (G : nx.DiGraph) (u v : nx.node) :
  nx.has_edge G u v = true <-> In (u, v) (map fst (nx.edge_list G)).
Proof.
  unfold nx.has_edge. rewrite existsb_exists, in_map_iff. split.
  - intros [e [He Hk]]. apply key_eqb_eq in Hk. exists e; auto.
  - intros [e [Hk He]]. exists e. split; [assumption | now apply key_eqb_eq].
Qed.

Lemma set_weight_keys k f es : map fst (nx.set_weight k f es) = map fst es.
Proof.
  unfold nx.set_weight. rewrite map_map. apply map_ext.
  intros e. destruct (nx.key_eqb (fst e) k); reflexivity.
Qed.

Lemma add_node_In ns n x : In x (nx.add_node ns n) <-> In x ns \/ x = n.
Proof.
  unfold nx.add_node. destruct (nx.mem n ns) eqn:E.
  - apply mem_In in E. split; [auto | intros [H | ->]; assumption].
  - rewrite in_app_iff. simpl. intuition.
Qed.

Lemma add_node_NoDup ns n : NoDup ns -> NoDup (nx.add_node ns n).
Proof.
  intros H. unfold nx.add_node. destruct (nx.mem n ns) eqn:E; [assumption |].
  assert (Hn : ~ In n ns) by (rewrite <- mem_In, E; discriminate).
  clear E. induction H as [| a l Ha Hl IH]; simpl.
  - constructor; [intros [] | constructor].
  - constructor.
    + rewrite in_app_iff. simpl. intros [H1 | [H1 | []]]; [auto |].
      apply Hn. left; congruence.
    + apply IH. intros H1. apply Hn. right; assumption.
Qed.

(** ** The built graph is well formed *)

Lemma pairs_index (words : list string) :
  map (fun i => (nth i words "", nth (i + 1) words ""))
      (seq 0 (length words - 1)) = pairs words.
Proof.
  unfold pairs. induction words as [| a l IH]; [reflexivity |].
  destruct l as [| b l]; [reflexivity |].
  change (length (a :: b :: l) - 1) with (S (length l)).
  change (length (b :: l) - 1) with (length l - 0) in IH.
  rewrite Nat.sub_0_r in IH.
  change (combine (a :: b :: l) (tl (a :: b :: l)))
    with ((a, b) :: combine (b :: l) (tl (b :: l))).
  rewrite <- IH. simpl seq. rewrite <- seq_shift. simpl map at 1.
  rewrite map_map. reflexivity.
Qed.

Lemma build_fold (words : list string) :
  build_speech_graph words = fold_left add_pair (pairs words) nx.empty.
Proof.
  unfold build_speech_graph. rewrite <- pairs_index.
  generalize (seq 0 (length words - 1)) nx.empty.
  intros l. induction l as [| i l IH]; intros G; [reflexivity |].
  simpl. rewrite <- IH. reflexivity.
Qed.

Lemma add_pair_keys G p :
  keys_of (add_pair G p) =
  if nx.has_edge G (fst p) (snd p) then keys_of G else keys_of G ++ [p].
Proof.
  unfold add_pair, keys_of. destruct p as [u v]; simpl.
  destruct (nx.has_edge G u v) eqn:E.
  - simpl. apply set_weight_keys.
  - unfold nx.add_edge. rewrite E. simpl. rewrite map_app. reflexivity.
Qed.

Lemma add_pair_nodes G p :
  nx.node_list (add_pair G p) =
  if nx.has_edge G (fst p) (snd p) then nx.node_list G
  else nx.add_node (nx.add_node (nx.node_list G) (fst p)) (snd p).
Proof.
  unfold add_pair. destruct p as [u v]; simpl.
  destruct (nx.has_edge G u v) eqn:E; [reflexivity |].
  unfold nx.add_edge. rewrite E. reflexivity.
Qed.

Lemma add_pair_wf G p : wf G -> wf (add_pair G p).
Proof.
  intros [Hn Hk He]. destruct p as [u v].
  constructor.
  - rewrite add_pair_nodes. simpl.
    destruct (nx.has_edge G u v); [assumption |].
    now apply add_node_NoDup, add_node_NoDup.
  - rewrite add_pair_keys. simpl.
    destruct (nx.has_edge G u v) eqn:E; [assumption |].
    assert (Hnot : ~ In (u, v) (keys_of G)).
    { unfold keys_of. rewrite <- has_edge_In, E. discriminate. }
    apply NoDup_rev in Hk. rewrite <- (rev_involutive (keys_of G ++ [(u, v)])).
    apply NoDup_rev. rewrite rev_app_distr. simpl. constructor; [| assumption].
    rewrite <- in_rev. assumption.
  - intros a b. rewrite add_pair_keys, add_pair_nodes. simpl.
    destruct (nx.has_edge G u v) eqn:E; [apply He |].
    rewrite in_app_iff, !add_node_In. simpl.
    intros [H | [H | []]].
    + destruct (He a b H). tauto.
    + inversion H; subst. tauto.
Qed.

Lemma empty_wf : wf nx.empty.
Proof. constructor; simpl; [constructor | constructor | intros u v []]. Qed.

Lemma fold_add_pair_wf ps : forall G, wf G -> wf (fold_left add_pair ps G).
Proof.
  induction ps as [| p ps IH]; intros G HG; [assumption |].
  simpl. apply IH, add_pair_wf, HG.
Qed.

Lemma build_wf (words : list string) : wf (build_speech_graph words).
Proof. rewrite build_fold. apply fold_add_pair_wf, empty_wf. Qed.

(** ** What the built graph contains *)

Lemma fold_add_pair_keys ps : forall G k,
  In k (keys_of (fold_left add_pair ps G)) <-> In k (keys_of G) \/ In k ps.
Proof.
  induction ps as [| p ps IH]; intros G k; simpl; [tauto |].
  rewrite IH, add_pair_keys.
  destruct (nx.has_edge G (fst p) (snd p)) eqn:E.
  - destruct p as [u v]. apply has_edge_In in E. fold (keys_of G) in E.
    simpl in E. split; [tauto |]. intros [H | [<- | H]]; auto.
  - rewrite in_app_iff. simpl. intuition.
Qed.

Lemma fold_add_pair_nodes ps : forall G n, wf G ->
  In n (nx.node_list (fold_left add_pair ps G)) <->
  In n (nx.node_list G) \/ end_of ps n.
Proof.
  unfold end_of. induction ps as [| p ps IH]; intros G n HG; simpl.
  - split; [auto | intros [H | [p [[] _]]]; assumption].
  - rewrite (IH _ _ (add_pair_wf G p HG)), add_pair_nodes.
    destruct (nx.has_edge G (fst p) (snd p)) eqn:E.
    + destruct p as [u v]. apply has_edge_In in E.
      destruct (wf_ends G HG u v E) as [Hu Hv]. simpl.
      split.
      * intros [H | [q [Hq Hn]]]; [auto | right; exists q; auto].
      * intros [H | [q [[<- | Hq] Hn]]]; [auto | | right; exists q; auto].
        simpl in Hn. destruct Hn as [-> | ->]; auto.
    + rewrite !add_node_In. split.
      * intros [[[H | ->] | ->] | [q [Hq Hn]]]; auto.
        -- right. exists p. auto.
        -- right. exists p. auto.
        -- right. exists q. auto.
      * intros [H | [q [[<- | Hq] Hn]]]; auto.
        -- destruct Hn as [-> | ->]; auto.
        -- right. exists q. auto.
Qed.

Lemma build_keys (words : list string) k :
  In k (keys_of (build_speech_graph words)) <-> In k (pairs words).
Proof.
  rewrite build_fold, fold_add_pair_keys. simpl. tauto.
Qed.

Lemma build_nodes (words : list string) n :
  In n (nx.node_list (build_speech_graph words)) <-> end_of (pairs words) n.
Proof.
  rewrite build_fold, (fold_add_pair_nodes _ _ _ empty_wf). simpl. tauto.
Qed.

(** With two words or more, every word is an end of an adjacent pair. *)
Lemma pairs_ends (words : list string) n :
  2 <= length words -> (end_of (pairs words) n <-> In n words).
Proof.
  unfold end_of, pairs. induction words as [| a l IH]; simpl; [lia |].
  destruct l as [| b l]; simpl; [lia |]. intros _.
  destruct l as [| c l].
  - simpl. split.
    + intros [p [[<- | []] [-> | ->]]]; simpl; auto.
    + intros [<- | [<- | []]]; exists (a, b); simpl; auto.
  - assert (H2 : 2 <= length (b :: c :: l)) by (simpl; lia).
    specialize (IH H2). simpl in IH. split.
    + intros [p [[<- | Hp] Hn]].
      * simpl in Hn. destruct Hn as [-> | ->]; auto.
      * right. apply IH. exists p. auto.
    + intros [<- | H].
      * exists (a, b). simpl. auto.
      * apply IH in H. destruct H as [p [Hp Hn]]. exists p. auto.
Qed.

Lemma same_elements_length {A} (l1 l2 : list A) :
  NoDup l1 -> NoDup l2 -> (forall x, In x l1 <-> In x l2) ->
  length l1 = length l2.
Proof.
  intros H1 H2 H. apply Nat.le_antisymm; apply NoDup_incl_length; trivial;
    intros x Hx; apply H; assumption.
Qed.

(** From two words on, the nodes are the distinct words. *)
Lemma node_count_distinct (words : list string) :
  2 <= length words ->
  nx.number_of_nodes (build_speech_graph words) = distinct words.
Proof.
  intros H. unfold nx.number_of_nodes, distinct.
  apply same_elements_length.
  - apply wf_nodes, build_wf.
  - apply NoDup_nodup.
  - intros x. rewrite build_nodes, nodup_In. apply pairs_ends, H.
Qed.

(** ** Counting edges *)

Lemma sum_nat_add {A} (f g : A -> nat) (l : list A) :
  sum_nat (map (fun x => f x + g x) l) = sum_nat (map f l) + sum_nat (map g l).
Proof. induction l as [| a l IH]; simpl; [reflexivity | rewrite IH; lia]. Qed.

Lemma sum_nat_indicator (x : string) (ns : list string) :
  NoDup ns -> In x ns ->
  sum_nat (map (fun n => if String.eqb x n then 1 else 0) ns) = 1.
Proof.
  induction 1 as [| a l Ha Hl IH]; simpl; [intros [] |].
  intros [-> | Hx].
  - rewrite String.eqb_refl. f_equal.
    clear IH Hl. induction l as [| b l IH]; simpl; [reflexivity |].
    destruct (String.eqb x b) eqn:E.
    + apply String.eqb_eq in E. subst. exfalso. apply Ha. left; reflexivity.
    + apply IH. intros H. apply Ha. right; assumption.
  - destruct (String.eqb x a) eqn:E.
    + apply String.eqb_eq in E. subst. contradiction.
    + simpl. apply IH, Hx.
Qed.

(** Grouping the edges by one of their end points loses none and counts
    none twice. *)
Lemma group_count {E} (f : E -> string) (es : list E) (ns : list string) :
  NoDup ns -> (forall e, In e es -> In (f e) ns) ->
  sum_nat (map (fun n => length (filter (fun e => String.eqb (f e) n) es)) ns)
  = length es.
Proof.
  intros Hn. induction es as [| e es IH]; intros H.
  - clear Hn H. induction ns as [| n ns IHn]; simpl; auto.
  - rewrite (map_ext _ (fun n => (if String.eqb (f e) n then 1 else 0)
                     + length (filter (fun e => String.eqb (f e) n) es))).
    + rewrite sum_nat_add, IH, sum_nat_indicator.
      * reflexivity.
      * assumption.
      * apply H. left; reflexivity.
      * intros e' He'. apply H. right; assumption.
    + intros n. simpl. destruct (String.eqb (f e) n); reflexivity.
Qed.

Lemma wf_edge_ends G e : wf G -> In e (nx.edge_list G) ->
  In (fst (fst e)) (nx.node_list G) /\ In (snd (fst e)) (nx.node_list G).
Proof.
  intros HG He. apply (wf_ends G HG). unfold keys_of.
  rewrite <- surjective_pairing. apply in_map, He.
Qed.

(** Handshake: every edge adds one to an out-degree and one to an
    in-degree, so the degrees sum to twice the number of edges. *)
Lemma degree_sum G : wf G ->
  sum_nat (map snd (nx.degree_view G)) = 2 * nx.number_of_edges G.
Proof.
  intros HG. unfold nx.degree_view. rewrite map_map. simpl.
  unfold nx.degree, nx.in_degree, nx.out_degree, nx.predecessors, nx.successors.
  rewrite sum_nat_add.
  rewrite (map_ext _ (fun n => length
      (filter (fun e : nx.edge_key * Z => String.eqb (snd (fst e)) n) (nx.edge_list G))))
    by (intros; apply length_map).
  rewrite (map_ext (fun n => length (map _ _)) (fun n => length
      (filter (fun e : nx.edge_key * Z => String.eqb (fst (fst e)) n) (nx.edge_list G))))
    by (intros; apply length_map).
  rewrite !group_count.
  - unfold nx.number_of_edges. lia.
  - apply wf_nodes, HG.
  - intros e He. apply (wf_edge_ends G e HG He).
  - apply wf_nodes, HG.
  - intros e He. apply (wf_edge_ends G e HG He).
Qed.

Lemma selfloops_keys G :
  nx.number_of_selfloops G = length (filter is_diag (keys_of G)).
Proof.
  unfold nx.number_of_selfloops, keys_of.
  rewrite filter_map_swap, length_map. reflexivity.
Qed.

(** Edges that are not self-loops are ordered pairs of distinct nodes:
    there are at most [n * (n - 1)] of them. *)
Lemma proper_edges_bound G : wf G ->
  nx.number_of_edges G - nx.number_of_selfloops G
  <= nx.number_of_nodes G * (nx.number_of_nodes G - 1).
Proof.
  intros HG. rewrite selfloops_keys.
  unfold nx.number_of_edges, nx.number_of_nodes.
  rewrite <- (length_map fst (nx.edge_list G)). fold (keys_of G).
  rewrite <- (filter_length is_diag (keys_of G)).
  set (ns := nx.node_list G).
  set (proper := filter (fun k => negb (is_diag k)) (keys_of G)).
  assert (H : length (proper ++ map (fun n => (n, n)) ns)
              <= length (list_prod ns ns)).
  { apply NoDup_incl_length.
    - apply NoDup_app.
      + apply NoDup_filter, wf_keys, HG.
      + apply NoDup_map_NoDup_ForallPairs; [| apply wf_nodes, HG].
        intros x y _ _ Hxy. congruence.
      + intros k Hk Hd. apply filter_In in Hk. destruct Hk as [_ Hk].
        apply in_map_iff in Hd. destruct Hd as [n [<- _]].
        unfold is_diag in Hk. simpl in Hk. rewrite String.eqb_refl in Hk.
        discriminate.
    - intros [u v] Hk. apply in_prod_iff. apply in_app_or in Hk.
      destruct Hk as [Hk | Hk].
      + apply filter_In in Hk. apply (wf_ends G HG), Hk.
      + apply in_map_iff in Hk. destruct Hk as [n [Hn Hin]].
        inversion Hn; subst. auto. }
  rewrite length_app, length_map, length_prod in H.
  assert (Hmul : length ns * (length ns - 1) = length ns * length ns - length ns) by nia.
  lia.
Qed.

Lemma selfloops_bound G : wf G ->
  nx.number_of_selfloops G <= nx.number_of_nodes G.
Proof.
  intros HG. rewrite selfloops_keys. unfold nx.number_of_nodes.
  rewrite <- (length_map (fun k : nx.edge_key => fst k) (filter is_diag (keys_of G))).
  apply NoDup_incl_length.
  - apply NoDup_map_NoDup_ForallPairs; [| apply NoDup_filter, wf_keys, HG].
    intros [a b] [c d] Hx Hy. apply filter_In in Hx, Hy.
    destruct Hx as [_ Hx], Hy as [_ Hy]. unfold is_diag in *. simpl in *.
    apply String.eqb_eq in Hx, Hy. congruence.
  - intros n Hn. apply in_map_iff in Hn. destruct Hn as [[a b] [<- Hk]].
    apply filter_In in Hk. apply (wf_ends G HG a b), Hk.
Qed.

(** ** Rational helpers *)

Lemma true_div_nonneg (a b : nat) : (0 <= nx.true_div a b)%Q.
Proof.
  unfold nx.true_div, Qdiv. apply Qmult_le_0_compat.
  - change 0%Q with (inject_Z 0). rewrite <- Zle_Qle. lia.
  - apply Qinv_le_0_compat. change 0%Q with (inject_Z 0).
    rewrite <- Zle_Qle. lia.
Qed.

Lemma true_div_le (a b k : nat) :
  0 < b -> a <= k * b -> (nx.true_div a b <= of_nat k)%Q.
Proof.
  intros Hb H. unfold nx.true_div, of_nat. apply Qle_shift_div_r.
  - change 0%Q with (inject_Z 0). rewrite <- Zlt_Qlt. lia.
  - rewrite <- inject_Z_mult, <- Zle_Qle. lia.
Qed.

Lemma true_div_pos (a b : nat) : 0 < a -> 0 < b -> (0 < nx.true_div a b)%Q.
Proof.
  intros Ha Hb. unfold nx.true_div. apply Qlt_shift_div_l.
  - change 0%Q with (inject_Z 0). rewrite <- Zlt_Qlt. lia.
  - rewrite Qmult_0_l. change 0%Q with (inject_Z 0). rewrite <- Zlt_Qlt. lia.
Qed.

(** ** Reachability

    The search of [nx.reachable] is compared with the reflexive and
    transitive closure of the successor relation, over any node list
    that contains the successors of its members. *)

Section ReachCorrect.

Variable succs : nx.node -> list nx.node.
Variable V : list nx.node.
Hypothesis succs_in : forall u v, In v (succs u) -> In v V.

Lemma expand_In s x :
  In x (nx.expand succs s) <-> In x s \/ exists u, In u s /\ In x (succs u).
Proof.
  unfold nx.expand. rewrite nodup_In, in_app_iff, in_flat_map. tauto.
Qed.

Lemma closure_NoDup k s : NoDup s -> NoDup (nx.closure succs k s).
Proof. destruct k; simpl; [auto | intros _; apply NoDup_nodup]. Qed.

Lemma closure_in_V k s : incl s V -> incl (nx.closure succs k s) V.
Proof.
  intros Hs. induction k as [| k IH]; simpl; [assumption |].
  intros x Hx. apply expand_In in Hx. destruct Hx as [Hx | [u [_ Hx]]].
  - apply IH, Hx.
  - apply (succs_in u x Hx).
Qed.

Lemma closure_start k s : incl s (nx.closure succs k s).
Proof.
  induction k as [| k IH]; simpl; intros x Hx; [assumption |].
  apply expand_In. left. apply IH, Hx.
Qed.

Lemma closure_sound k v x : In x (nx.closure succs k [v]) -> path succs v x.
Proof.
  revert x. induction k as [| k IH]; simpl; intros x Hx.
  - destruct Hx as [<- | []]. apply rt_refl.
  - apply expand_In in Hx. destruct Hx as [Hx | [u [Hu Hx]]].
    + apply IH, Hx.
    + apply rt_trans with u; [apply IH, Hu | apply rt_step, Hx].
Qed.

(** A round of search that adds nothing has reached a closed set. *)
Lemma expand_grows s :
  NoDup s -> closed succs s \/ length s < length (nx.expand succs s).
Proof.
  intros Hs. destruct (Nat.le_gt_cases (length (nx.expand succs s)) (length s))
    as [Hle | Hlt]; [left | right; assumption].
  assert (Hincl : incl (nx.expand succs s) s).
  { apply NoDup_length_incl; [assumption | assumption |].
    intros x Hx. apply expand_In. left; assumption. }
  intros u x Hu Hx. apply Hincl, expand_In. right. exists u. auto.
Qed.

Lemma closed_expand s : closed succs s -> closed succs (nx.expand succs s).
Proof.
  intros Hc u x Hu Hx. apply expand_In. left.
  apply expand_In in Hu. destruct Hu as [Hu | [w [Hw Hu]]].
  - apply (Hc u x Hu Hx).
  - apply (Hc u x (Hc w u Hw Hu) Hx).
Qed.

Lemma closure_progress s k : NoDup s ->
  closed succs (nx.closure succs k s) \/ length s + k <= length (nx.closure succs k s).
Proof.
  intros Hs. induction k as [| k IH]; simpl.
  - right. lia.
  - destruct IH as [Hc | Hlen].
    + left. apply closed_expand, Hc.
    + destruct (expand_grows (nx.closure succs k s) (closure_NoDup k s Hs))
        as [Hc | Hlt].
      * left. apply closed_expand, Hc.
      * right. lia.
Qed.

(** As many rounds as there are nodes always suffice. *)
Lemma closure_closed v : In v V -> closed succs (nx.reach_set succs (length V) v).
Proof.
  intros Hv. unfold nx.reach_set.
  assert (Hs : NoDup [v]) by (constructor; [intros [] | constructor]).
  destruct (closure_progress [v] (length V) Hs) as [Hc | Hlen]; [assumption |].
  exfalso.
  assert (Hle : length (nx.closure succs (length V) [v]) <= length V).
  { apply NoDup_incl_length; [apply closure_NoDup, Hs |].
    apply closure_in_V. intros x [<- | []]. assumption. }
  simpl in Hlen. lia.
Qed.

Theorem reachable_path u v : In u V ->
  (nx.reachable succs (length V) u v = true <-> path succs u v).
Proof.
  intros Hu. unfold nx.reachable. rewrite mem_In. split.
  - apply closure_sound.
  - intros Hp. apply clos_rt_rtn1 in Hp. induction Hp as [| y z Hyz _ IH].
    + apply (closure_start (length V) [u]). left; reflexivity.
    + apply (closure_closed u Hu y z IH Hyz).
Qed.

Lemma path_in_V u v : In u V -> path succs u v -> In v V.
Proof.
  intros Hu Hp. apply clos_rt_rtn1 in Hp. destruct Hp as [| y z Hyz _]; [assumption |].
  apply (succs_in y z Hyz).
Qed.

End ReachCorrect.

(** ** Components *)

Section Classes.

Variable same : nx.node -> nx.node -> bool.
Variable V : list nx.node.
Hypothesis same_sym : forall u v,
  In u V -> In v V -> same u v = true -> same v u = true.
Hypothesis same_trans : forall u v w,
  In u V -> In v V -> In w V ->
  same u v = true -> same v w = true -> same u w = true.

Lemma class_eq r v : In r V -> In v V -> same r v = true ->
  filter (same r) V = filter (same v) V.
Proof.
  intros Hr Hv Hrv. apply filter_ext_in. intros a Ha.
  destruct (same r a) eqn:Era, (same v a) eqn:Eva; trivial.
  - rewrite (same_trans v r a Hv Hr Ha (same_sym r v Hr Hv Hrv) Era) in Eva.
    discriminate.
  - rewrite (same_trans r v a Hr Hv Ha Hrv Eva) in Era. discriminate.
Qed.

(** Every node finds its class in the list, unless an earlier
    representative already stands for it. *)
Lemma classes_cover todo : forall reps,
  incl todo V -> incl reps V -> forall v, In v todo ->
  (exists r, In r reps /\ same r v = true)
  \/ In (filter (same v) V) (nx.classes same V reps todo).
Proof.
  induction todo as [| v0 rest IH]; intros reps Ht Hr v Hv; [destruct Hv |].
  assert (Hrest : incl rest V) by (intros x Hx; apply Ht; right; assumption).
  assert (Hv0 : In v0 V) by (apply Ht; left; reflexivity).
  simpl. destruct (existsb (fun r => same r v0) reps) eqn:E.
  - destruct Hv as [<- | Hv].
    + left. apply existsb_exists in E. exact E.
    + apply (IH reps Hrest Hr v Hv).
  - destruct Hv as [<- | Hv]; [right; left; reflexivity |].
    assert (Hr' : incl (v0 :: reps) V).
    { intros x [<- | Hx]; [assumption | apply Hr, Hx]. }
    destruct (IH (v0 :: reps) Hrest Hr' v Hv) as [[r [[<- | Hin] Hs]] | Hc].
    + right. left. apply class_eq; auto.
    + left. exists r. auto.
    + right. right. assumption.
Qed.

Lemma classes_shape todo : forall reps c,
  In c (nx.classes same V reps todo) ->
  exists r, In r todo /\ c = filter (same r) V.
Proof.
  induction todo as [| v0 rest IH]; intros reps c Hc; [destruct Hc |].
  simpl in Hc. destruct (existsb (fun r => same r v0) reps).
  - destruct (IH _ _ Hc) as [r [Hr Heq]]. exists r. split; [right |]; assumption.
  - destruct Hc as [<- | Hc].
    + exists v0. split; [left |]; reflexivity.
    + destruct (IH _ _ Hc) as [r [Hr Heq]]. exists r. split; [right |]; assumption.
Qed.

End Classes.

Lemma filter_length_mono {A} (p q : A -> bool) (l : list A) :
  (forall x, In x l -> p x = true -> q x = true) ->
  length (filter p l) <= length (filter q l).
Proof.
  induction l as [| a l IH]; intros H; simpl; [lia |].
  assert (IH' : length (filter p l) <= length (filter q l)).
  { apply IH. intros x Hx. apply H. right; assumption. }
  destruct (p a) eqn:Ep.
  - rewrite (H a (or_introl eq_refl) Ep). simpl. lia.
  - destruct (q a); simpl; lia.
Qed.

Lemma largest_ge (cs : list (list nx.node)) c :
  In c cs -> length c <= largest cs.
Proof.
  intros Hc. unfold largest.
  assert (H : Forall (fun k => k <= list_max (map (@length nx.node) cs))
                     (map (@length nx.node) cs)).
  { apply list_max_le. apply Nat.le_refl. }
  rewrite Forall_forall in H. apply H, in_map, Hc.
Qed.

Lemma largest_le (cs : list (list nx.node)) n :
  (forall c, In c cs -> length c <= n) -> largest cs <= n.
Proof.
  intros H. unfold largest. apply list_max_le. rewrite Forall_forall.
  intros k Hk. apply in_map_iff in Hk. destruct Hk as [c [<- Hc]]. apply H, Hc.
Qed.

(** *** Directed and undirected paths of a graph *)

Lemma successors_In G u v :
  In v (nx.successors G u) <-> In (u, v) (keys_of G).
Proof.
  unfold nx.successors, keys_of. rewrite !in_map_iff. split.
  - intros [e [<- He]]. apply filter_In in He. destruct He as [He Hu].
    apply String.eqb_eq in Hu. subst u. exists e. split; [| assumption].
    apply surjective_pairing.
  - intros [[[a b] w] [Hk He]]. simpl in Hk. inversion Hk; subst a b.
    exists ((u, v), w). split; [reflexivity |].
    apply filter_In. split; [assumption | apply String.eqb_refl].
Qed.

Lemma edges_keys G : wf G -> forall k,
  In k (map fst (nx.edges G)) <-> In k (keys_of G).
Proof.
  intros HG k. unfold nx.edges, keys_of. rewrite !in_map_iff. split.
  - intros [e [<- He]]. apply in_flat_map in He. destruct He as [n [_ He]].
    apply filter_In in He. exists e. tauto.
  - intros [e [<- He]]. exists e. split; [reflexivity |].
    apply in_flat_map. exists (fst (fst e)). split.
    + apply (wf_edge_ends G e HG He).
    + apply filter_In. split; [assumption | apply String.eqb_refl].
Qed.

Lemma g_has_edge_In es u v :
  nx.g_has_edge es u v = true <-> In (u, v) es \/ In (v, u) es.
Proof.
  unfold nx.g_has_edge. rewrite existsb_exists. split.
  - intros [k [Hk He]]. apply orb_true_iff in He.
    destruct He as [He | He]; apply key_eqb_eq in He; subst; auto.
  - intros [H | H]; eexists; (split; [exact H |]); apply orb_true_iff;
      [left | right]; apply key_eqb_eq; reflexivity.
Qed.

Lemma collapse_fold (l : list (nx.edge_key * Z)) : forall acc u v,
  In (u, v) (fold_left collapse l acc) \/ In (v, u) (fold_left collapse l acc)
  <-> (In (u, v) acc \/ In (v, u) acc)
      \/ In (u, v) (map fst l) \/ In (v, u) (map fst l).
Proof.
  induction l as [| e l IH]; intros acc u v; simpl; [tauto |].
  rewrite IH. unfold collapse at 1 2.
  destruct (nx.g_has_edge acc (fst (fst e)) (snd (fst e))) eqn:E.
  - apply g_has_edge_In in E. rewrite <- surjective_pairing in E.
    split; [tauto |].
    intros [H | [[H | H] | [H | H]]]; auto.
    + rewrite H in E. simpl in E. tauto.
    + rewrite H in E. simpl in E. tauto.
  - rewrite !in_app_iff. simpl. tauto.
Qed.

Lemma neighbors_In U u v :
  In v (nx.neighbors U u) <-> In (u, v) (nx.g_edges U) \/ In (v, u) (nx.g_edges U).
Proof.
  unfold nx.neighbors. rewrite in_flat_map. split.
  - intros [[a b] [Hk Hv]]. simpl in Hv.
    destruct (String.eqb a u) eqn:Ea.
    + apply String.eqb_eq in Ea. destruct Hv as [<- | []]. subst. auto.
    + destruct (String.eqb b u) eqn:Eb; [| destruct Hv].
      apply String.eqb_eq in Eb. destruct Hv as [<- | []]. subst. auto.
  - intros [H | H].
    + exists (u, v). split; [assumption |]. simpl.
      rewrite String.eqb_refl. left; reflexivity.
    + exists (v, u). split; [assumption |]. simpl.
      destruct (String.eqb v u) eqn:E.
      * apply String.eqb_eq in E. left; auto.
      * rewrite String.eqb_refl. left; reflexivity.
Qed.

(** The neighbours in the undirected projection are the successors and
    the predecessors. *)
Lemma to_undirected_neighbors G u v : wf G ->
  (In v (nx.neighbors (nx.to_undirected G) u)
   <-> In (u, v) (keys_of G) \/ In (v, u) (keys_of G)).
Proof.
  intros HG. rewrite neighbors_In. unfold nx.to_undirected. simpl.
  change (fold_left _ (nx.edges G) []) with (fold_left collapse (nx.edges G) []).
  rewrite collapse_fold, !(edges_keys G HG). simpl. tauto.
Qed.

Lemma path_mono (s1 s2 : nx.node -> list nx.node) u v :
  (forall a b, In b (s1 a) -> In b (s2 a)) -> path s1 u v -> path s2 u v.
Proof.
  intros H Hp. induction Hp as [a b Hab | a | a b c _ IH1 _ IH2].
  - apply rt_step, H, Hab.
  - apply rt_refl.
  - apply rt_trans with b; assumption.
Qed.

Lemma path_sym (s : nx.node -> list nx.node) u v :
  (forall a b, In b (s a) -> In a (s b)) -> path s u v -> path s v u.
Proof.
  intros H Hp. induction Hp as [a b Hab | a | a b c _ IH1 _ IH2].
  - apply rt_step, H, Hab.
  - apply rt_refl.
  - apply rt_trans with b; assumption.
Qed.

Section Components.

Variable G : nx.DiGraph.
Hypothesis HG : wf G.

Let V := nx.node_list G.
Let U := nx.to_undirected G.

Lemma successors_in_nodes u v : In v (nx.successors G u) -> In v V.
Proof. intros H. apply successors_In in H. apply (wf_ends G HG u v H). Qed.

Lemma neighbors_in_nodes u v : In v (nx.neighbors U u) -> In v V.
Proof.
  intros H. apply (to_undirected_neighbors G u v HG) in H.
  destruct H as [H | H]; apply (wf_ends G HG) in H; tauto.
Qed.

Lemma strongly_connected_paths u v : In u V -> In v V ->
  (nx.strongly_connected G u v = true
   <-> path (nx.successors G) u v /\ path (nx.successors G) v u).
Proof.
  intros Hu Hv. unfold nx.strongly_connected.
  change (nx.number_of_nodes G) with (length V). rewrite andb_true_iff.
  rewrite (reachable_path _ V successors_in_nodes u v Hu).
  rewrite (reachable_path _ V successors_in_nodes v u Hv).
  tauto.
Qed.

Lemma connected_paths u v : In u V ->
  (nx.connected U u v = true <-> path (nx.neighbors U) u v).
Proof.
  intros Hu. unfold nx.connected.
  apply (reachable_path _ V neighbors_in_nodes u v Hu).
Qed.

Lemma neighbors_sym a b : In b (nx.neighbors U a) -> In a (nx.neighbors U b).
Proof.
  intros H. apply (to_undirected_neighbors G a b HG) in H.
  apply (to_undirected_neighbors G b a HG). tauto.
Qed.

Lemma successors_neighbors a b :
  In b (nx.successors G a) -> In b (nx.neighbors U a).
Proof.
  intros H. apply (to_undirected_neighbors G a b HG). left.
  apply successors_In, H.
Qed.

Lemma connected_sym u v : In u V -> In v V ->
  nx.connected U u v = true -> nx.connected U v u = true.
Proof.
  intros Hu Hv H. apply (connected_paths v u Hv).
  apply path_sym; [exact neighbors_sym |]. apply (connected_paths u v Hu), H.
Qed.

Lemma connected_trans u v w : In u V -> In v V -> In w V ->
  nx.connected U u v = true -> nx.connected U v w = true ->
  nx.connected U u w = true.
Proof.
  intros Hu Hv Hw H1 H2. apply (connected_paths u w Hu).
  apply rt_trans with v.
  - apply (connected_paths u v Hu), H1.
  - apply (connected_paths v w Hv), H2.
Qed.

(** Nodes that reach each other lie in one component of the
    undirected projection. *)
Lemma strongly_connected_connected u v : In u V -> In v V ->
  nx.strongly_connected G u v = true -> nx.connected U u v = true.
Proof.
  intros Hu Hv H. apply (connected_paths u v Hu).
  apply (strongly_connected_paths u v Hu Hv) in H.
  apply (path_mono (nx.successors G)); [exact successors_neighbors | tauto].
Qed.

Lemma strongly_connected_refl v : nx.strongly_connected G v v = true.
Proof.
  unfold nx.strongly_connected, nx.reachable. apply andb_true_iff.
  assert (H : In v (nx.reach_set (nx.successors G) (nx.number_of_nodes G) v)).
  { apply closure_start. left; reflexivity. }
  split; apply mem_In, H.
Qed.

Lemma component_sizes : 0 < nx.number_of_nodes G ->
  1 <= largest (nx.strongly_connected_components G)
  /\ largest (nx.strongly_connected_components G)
     <= largest (nx.connected_components U)
  /\ largest (nx.connected_components U) <= nx.number_of_nodes G.
Proof.
  intros Hn. unfold nx.strongly_connected_components, nx.connected_components.
  change (nx.g_nodes U) with V. fold V. repeat split.
  - unfold nx.number_of_nodes in Hn. fold V in Hn.
    destruct V as [| v rest] eqn:EV; [simpl in Hn; lia |].
    simpl nx.classes.
    apply Nat.le_trans
      with (length (filter (nx.strongly_connected G v) (v :: rest))).
    + simpl. rewrite strongly_connected_refl. simpl. lia.
    + apply largest_ge. left; reflexivity.
  - apply largest_le. intros c Hc.
    apply classes_shape in Hc. destruct Hc as [r [Hr ->]].
    apply Nat.le_trans with (length (filter (nx.connected U r) V)).
    + apply filter_length_mono. intros x Hx.
      apply strongly_connected_connected; assumption.
    + apply largest_ge.
      destruct (classes_cover (nx.connected U) V connected_sym connected_trans
                  V [] (incl_refl V) (incl_nil_l V) r Hr)
        as [[r' [[] _]] | H].
      exact H.
  - apply largest_le. intros c Hc.
    apply classes_shape in Hc. destruct Hc as [r [_ ->]].
    apply filter_length_le.
Qed.

End Components.

Lemma largest_or_zero (cs : list (list nx.node)) :
  match cs with [] => 0 | c :: r => largest (c :: r) end = largest cs.
Proof. destruct cs; reflexivity. Qed.

(** C7: on a graph with at least one node, the largest strongly
    connected component has at least one node, is no larger than the
    largest connected component of the undirected projection, and that
    one is no larger than the graph: [1 <= lsc <= lcc <= node_count]. *)
Theorem lsc_lcc_bounds (G : nx.DiGraph) :
  wf G -> 0 < nx.number_of_nodes G ->
  1 <= calculate_lsc G
  /\ calculate_lsc G <= calculate_lcc G
  /\ calculate_lcc G <= nx.number_of_nodes G.
Proof.
  intros HG Hn. unfold calculate_lsc, calculate_lcc.
  destruct (nx.number_of_nodes G =? 0) eqn:E.
  - apply Nat.eqb_eq in E. lia.
  - rewrite !largest_or_zero. apply component_sizes; assumption.
Qed.

Lemma lsc_lcc_bounds_witness :
  1 <= calculate_lsc (build_speech_graph ["a"; "b"; "a"; "b"; "c"])
  /\ calculate_lsc (build_speech_graph ["a"; "b"; "a"; "b"; "c"])
     <= calculate_lcc (build_speech_graph ["a"; "b"; "a"; "b"; "c"])
  /\ calculate_lcc (build_speech_graph ["a"; "b"; "a"; "b"; "c"])
     <= nx.number_of_nodes (build_speech_graph ["a"; "b"; "a"; "b"; "c"]).
Proof.
  apply (lsc_lcc_bounds (build_speech_graph ["a"; "b"; "a"; "b"; "c"])).
  - apply build_wf.
  - vm_compute. lia.
Defined.

(** ** Metrics of a window *)

Lemma analyze_window_cons (w : string) (ws : list string) :
  analyze_window (w :: ws) =
  let G := build_speech_graph (w :: ws) in
  mkMetrics (nx.number_of_nodes G) (nx.number_of_edges G)
            (calculate_lsc G) (calculate_lcc G) (count_loops G)
            (count_parallel_edges G)
            (if 0 <? nx.number_of_nodes G then nx.density G else 0%Q)
            (if 0 <? nx.number_of_nodes G
             then nx.true_div (sum_nat (map snd (nx.degree_view G)))
                              (nx.number_of_nodes G)
             else 0%Q)
            None None.
Proof. reflexivity. Qed.

(** C10: the reported average degree is twice the number of edges over
    the number of nodes when there is a node, and zero when there is
    none. *)
Theorem avg_degree_handshake (words : list string) :
  (0 < nodes (analyze_window words) ->
   avg_degree (analyze_window words)
   = nx.true_div (2 * edges (analyze_window words)) (nodes (analyze_window words)))
  /\ (nodes (analyze_window words) = 0 ->
      avg_degree (analyze_window words) = 0%Q).
Proof.
  destruct words as [| w ws].
  - simpl. split; [lia | reflexivity].
  - rewrite analyze_window_cons. cbv zeta. cbn [nodes edges avg_degree].
    split; intros H.
    + apply Nat.ltb_lt in H. rewrite H.
      rewrite degree_sum by apply build_wf. reflexivity.
    + rewrite H. reflexivity.
Qed.

Lemma avg_degree_handshake_witness :
  avg_degree (analyze_window ["to"; "be"; "or"; "not"; "to"; "be"])
  = nx.true_div (2 * edges (analyze_window ["to"; "be"; "or"; "not"; "to"; "be"]))
                (nodes (analyze_window ["to"; "be"; "or"; "not"; "to"; "be"]))
  /\ avg_degree (analyze_window ["be"]) = 0%Q.
Proof.
  split.
  - apply (proj1 (avg_degree_handshake ["to"; "be"; "or"; "not"; "to"; "be"])).
    vm_compute. lia.
  - apply (proj2 (avg_degree_handshake ["be"])). reflexivity.
Defined.

(** C4, as the code has it: the density is never negative and never
    above 2, it is zero below two nodes, and it stays within [0,1] when
    the graph has no self-loop. *)
Theorem density_bounds (words : list string) :
  (0 <= density (analyze_window words) <= 2)%Q
  /\ (nodes (analyze_window words) < 2 -> density (analyze_window words) = 0%Q)
  /\ (L1 (loops (analyze_window words)) = 0 ->
      (density (analyze_window words) <= 1)%Q).
Proof.
  destruct words as [| w ws].
  - simpl. repeat split; try reflexivity; intros; discriminate.
  - rewrite analyze_window_cons. cbv zeta.
    cbn [nodes density loops count_loops L1].
    set (G := build_speech_graph (w :: ws)).
    assert (HG : wf G) by apply build_wf.
    pose proof (proper_edges_bound G HG) as Hp.
    pose proof (selfloops_bound G HG) as Hs.
    unfold nx.density.
    destruct (0 <? nx.number_of_nodes G) eqn:E0;
      [| repeat split; try reflexivity; intros; discriminate].
    destruct ((nx.number_of_edges G =? 0) || (nx.number_of_nodes G <=? 1)) eqn:E.
    + repeat split; try reflexivity; intros; discriminate.
    + apply orb_false_iff in E. destruct E as [Em En].
      apply Nat.eqb_neq in Em. apply Nat.leb_gt in En.
      assert (Hpos : 0 < nx.number_of_nodes G * (nx.number_of_nodes G - 1)) by nia.
      repeat split.
      * apply true_div_nonneg.
      * apply (true_div_le _ _ 2 Hpos). nia.
      * intros Hlt. lia.
      * intros H1. apply (true_div_le _ _ 1 Hpos). lia.
Qed.

Lemma density_bounds_witness :
  density (analyze_window ["be"]) = 0%Q
  /\ (density (analyze_window ["to"; "be"; "or"; "not"; "to"; "be"]) <= 1)%Q.
Proof.
  split.
  - apply (proj1 (proj2 (density_bounds ["be"]))). vm_compute. lia.
  - apply (proj2 (proj2 (density_bounds ["to"; "be"; "or"; "not"; "to"; "be"]))).
    vm_compute. reflexivity.
Defined.

(** The claim of C4 fails where self-loops fill the graph: two words,
    each repeated and each following the other, give four edges on two
    nodes and density 2. *)
Lemma density_above_one :
  ~ (density (analyze_window ["no"; "no"; "yes"; "yes"; "no"]) <= 1)%Q.
Proof. vm_compute. intros H. apply H. reflexivity. Qed.

(** ** Self-loops *)

Lemma repeated_tokens_In (words : list string) t :
  In t (repeated_tokens words) <-> In (t, t) (pairs words).
Proof.
  unfold repeated_tokens, adjacent_equal.
  rewrite nodup_In, <- pairs_index, !in_map_iff. split.
  - intros [i [<- Hi]]. apply filter_In in Hi. destruct Hi as [Hi He].
    apply String.eqb_eq in He. exists i. split; [| assumption].
    rewrite <- He. reflexivity.
  - intros [i [He Hi]]. exists i.
    assert (H1 : nth i words "" = t) by congruence.
    assert (H2 : nth (i + 1) words "" = t) by congruence.
    split; [assumption |]. apply filter_In. split; [assumption |].
    rewrite H1, H2. apply String.eqb_refl.
Qed.

Lemma selfloops_repeated (words : list string) :
  nx.number_of_selfloops (build_speech_graph words)
  = length (repeated_tokens words).
Proof.
  rewrite selfloops_keys.
  set (G := build_speech_graph words).
  rewrite <- (length_map (fun k : nx.edge_key => fst k) (filter is_diag (keys_of G))).
  apply same_elements_length.
  - apply NoDup_map_NoDup_ForallPairs;
      [| apply NoDup_filter, wf_keys, build_wf].
    intros [a b] [c d] Hx Hy. apply filter_In in Hx, Hy.
    destruct Hx as [_ Hx], Hy as [_ Hy]. unfold is_diag in *. simpl in *.
    apply String.eqb_eq in Hx, Hy. congruence.
  - apply NoDup_nodup.
  - intros t. rewrite repeated_tokens_In, <- build_keys. fold G.
    rewrite in_map_iff. split.
    + intros [[a b] [<- Hk]]. apply filter_In in Hk. destruct Hk as [Hk Hd].
      unfold is_diag in Hd. simpl in *. apply String.eqb_eq in Hd. subst b.
      assumption.
    + intros H. exists (t, t). split; [reflexivity |]. apply filter_In.
      split; [assumption |]. unfold is_diag. simpl. apply String.eqb_refl.
Qed.

(** C3, as the code has it: [L1] is the number of self-loop edges of
    the graph, that is the number of distinct tokens that are somewhere
    immediately followed by themselves.  A token repeated five times
    gives one node, one edge, [L1 = 1], [lsc = 1] and [lcc = 1]. *)
Theorem L1_counts_repeated_tokens :
  (forall words : list string,
     L1 (loops (analyze_window words)) = length (repeated_tokens words))
  /\ (let m := analyze_window ["x"; "x"; "x"; "x"; "x"] in
      nodes m = 1 /\ edges m = 1 /\ L1 (loops m) = 1 /\ lsc m = 1 /\ lcc m = 1).
Proof.
  split.
  - intros [| w ws]; [reflexivity |].
    rewrite analyze_window_cons. cbv zeta. cbn [loops count_loops L1].
    apply selfloops_repeated.
  - vm_compute. repeat split; reflexivity.
Qed.

(** The claim of C3 counts positions: a token repeated five times has
    four positions followed by the same token, and [L1] is 1. *)
Lemma L1_not_positions :
  length (adjacent_equal ["x"; "x"; "x"; "x"; "x"]) = 4
  /\ L1 (loops (analyze_window ["x"; "x"; "x"; "x"; "x"])) = 1
  /\ L1 (loops (analyze_window ["x"; "x"; "x"; "x"; "x"]))
     <> length (adjacent_equal ["x"; "x"; "x"; "x"; "x"]).
Proof. vm_compute. repeat split; try reflexivity. discriminate. Qed.

(** ** Nodes and distinct tokens *)

(** C2 at a one-word sequence: the loop of [build_speech_graph] does not
    run, no node is added, and the node count is 0 for 1 distinct
    token. *)
Theorem single_word_has_no_node :
  distinct ["hello"] = 1
  /\ nx.number_of_nodes (build_speech_graph ["hello"]) = 0
  /\ nodes (analyze_window ["hello"]) = 0.
Proof. vm_compute. repeat split; reflexivity. Qed.

Lemma node_count_empty : nodes (analyze_window []) = distinct [].
Proof. reflexivity. Qed.

Lemma node_count_window (words : list string) :
  2 <= length words -> nodes (analyze_window words) = distinct words.
Proof.
  intros H. destruct words as [| w ws]; [simpl in H; lia |].
  rewrite analyze_window_cons. cbv zeta. cbn [nodes].
  apply node_count_distinct, H.
Qed.

(** ** Aggregation over windows *)

Lemma of_nat_S (k : nat) : (of_nat (S k) == of_nat k + 1)%Q.
Proof.
  unfold of_nat. rewrite Nat2Z.inj_succ. unfold Z.succ.
  rewrite inject_Z_plus. reflexivity.
Qed.

Lemma of_nat_pos (k : nat) : 0 < k -> (0 < of_nat k)%Q.
Proof.
  intros H. unfold of_nat. change 0%Q with (inject_Z 0).
  rewrite <- Zlt_Qlt. lia.
Qed.

Lemma Qlt_bool_iff (x y : Q) : Qlt_bool x y = true <-> (x < y)%Q.
Proof.
  unfold Qlt_bool. rewrite negb_true_iff. split.
  - intros H. apply Qnot_le_lt. intros Hle. apply Qle_bool_iff in Hle. congruence.
  - intros H. destruct (Qle_bool y x) eqn:E; [| reflexivity].
    apply Qle_bool_iff in E. exfalso. apply (Qlt_not_le _ _ H E).
Qed.

Lemma Qlt_bool_false (x y : Q) : Qlt_bool x y = false -> (y <= x)%Q.
Proof.
  unfold Qlt_bool. rewrite negb_false_iff. apply Qle_bool_iff.
Qed.

Section Bounds.

Variables lo hi : Q.

Lemma sum_from (l : list Q) : forall a,
  Forall (fun x => lo <= x /\ x <= hi)%Q l ->
  (a + of_nat (length l) * lo <= fold_left Qplus l a
   /\ fold_left Qplus l a <= a + of_nat (length l) * hi)%Q.
Proof.
  induction l as [| x r IH]; intros a H.
  - simpl. change (of_nat 0) with 0%Q. split; lra.
  - inversion H as [| y r' [Hlo Hhi] Hr]; subst.
    destruct (IH (a + x)%Q Hr) as [H1 H2].
    change (length (x :: r)) with (S (length r)).
    simpl fold_left.
    assert (El : (of_nat (S (length r)) * lo == of_nat (length r) * lo + lo)%Q)
      by (rewrite of_nat_S; ring).
    assert (Eh : (of_nat (S (length r)) * hi == of_nat (length r) * hi + hi)%Q)
      by (rewrite of_nat_S; ring).
    rewrite El, Eh.
    set (tl := (of_nat (length r) * lo)%Q) in *.
    set (th := (of_nat (length r) * hi)%Q) in *.
    split; lra.
Qed.

(** The mean of values between [lo] and [hi] lies between them. *)
Lemma mean_between (l : list Q) :
  l <> [] -> Forall (fun x => lo <= x /\ x <= hi)%Q l ->
  (lo <= sum_exact l / of_nat (length l)
   /\ sum_exact l / of_nat (length l) <= hi)%Q.
Proof.
  intros Hne H. unfold sum_exact, py_sum.
  assert (Hn : (0 < of_nat (length l))%Q).
  { apply of_nat_pos. destruct l; [congruence | simpl; lia]. }
  destruct (sum_from l 0%Q H) as [H1 H2]. split.
  - apply Qle_shift_div_l; [assumption |].
    rewrite Qmult_comm. lra.
  - apply Qle_shift_div_r; [assumption |].
    rewrite Qmult_comm. lra.
Qed.

End Bounds.

Lemma min_from (l : list Q) : forall m,
  (fold_left (fun m y => if Qlt_bool y m then y else m) l m <= m)%Q
  /\ Forall (fun x => fold_left (fun m y => if Qlt_bool y m then y else m) l m <= x)%Q l.
Proof.
  induction l as [| y r IH]; intros m; simpl.
  - split; [apply Qle_refl | constructor].
  - destruct (Qlt_bool y m) eqn:E.
    + apply Qlt_bool_iff in E. destruct (IH y) as [H1 H2]. split.
      * apply Qle_trans with y; [assumption | apply Qlt_le_weak, E].
      * constructor; assumption.
    + apply Qlt_bool_false in E. destruct (IH m) as [H1 H2].
      split; [assumption |]. constructor; [| assumption].
      apply Qle_trans with m; assumption.
Qed.

Lemma max_from (l : list Q) : forall m,
  (m <= fold_left (fun m y => if Qlt_bool m y then y else m) l m)%Q
  /\ Forall (fun x => x <= fold_left (fun m y => if Qlt_bool m y then y else m) l m)%Q l.
Proof.
  induction l as [| y r IH]; intros m; simpl.
  - split; [apply Qle_refl | constructor].
  - destruct (Qlt_bool m y) eqn:E.
    + apply Qlt_bool_iff in E. destruct (IH y) as [H1 H2]. split.
      * apply Qle_trans with y; [apply Qlt_le_weak, E | assumption].
      * constructor; assumption.
    + apply Qlt_bool_false in E. destruct (IH m) as [H1 H2].
      split; [assumption |]. constructor; [| assumption].
      apply Qle_trans with m; assumption.
Qed.

Lemma min_avg_max (values : list Q) : values <> [] ->
  (min_exact values <= sum_exact values / of_nat (length values)
   /\ sum_exact values / of_nat (length values) <= max_exact values)%Q.
Proof.
  intros Hne. apply mean_between; [assumption |].
  destruct values as [| x r]; [congruence |].
  unfold min_exact, max_exact. simpl py_min. simpl py_max.
  destruct (min_from r x) as [Hm1 Hm2], (max_from r x) as [HM1 HM2].
  constructor; [split; assumption |].
  rewrite Forall_forall in *. intros y Hy. split; [apply Hm2 | apply HM2]; assumption.
Qed.

Lemma aggregate_cons (w : WindowMetrics) (ws : list WindowMetrics) :
  _aggregate_window_metrics (w :: ws) =
  flat_map
    (fun key =>
       [ (String.append "avg_" key, avg_of (values_of (w :: ws) key));
         (String.append "min_" key, min_of (values_of (w :: ws) key));
         (String.append "max_" key, max_of (values_of (w :: ws) key)) ])
    keys.
Proof. reflexivity. Qed.

Lemma dict_find_stats {N : Type} (a b c : string -> N) (key : string) :
  In key keys ->
  let d := flat_map
             (fun k => [ (String.append "avg_" k, a k);
                         (String.append "min_" k, b k);
                         (String.append "max_" k, c k) ]) keys in
  dict_find d (String.append "avg_" key) = Some (a key)
  /\ dict_find d (String.append "min_" key) = Some (b key)
  /\ dict_find d (String.append "max_" key) = Some (c key).
Proof.
  intros H. simpl in H.
  destruct H as [<- | [<- | [<- | [<- | [<- | [<- | []]]]]]];
    repeat split; reflexivity.
Qed.

Lemma values_of_nonempty w ws key : In key keys -> values_of (w :: ws) key <> [].
Proof.
  intros H. simpl in H.
  destruct H as [<- | [<- | [<- | [<- | [<- | [<- | []]]]]]];
    unfold values_of; simpl; discriminate.
Qed.

(** In exact arithmetic: the empty list aggregates to the empty
    dictionary; on a non-empty list every aggregated field has its three
    entries, and [min <= avg <= max]. *)
Theorem aggregate_min_avg_max :
  _aggregate_window_metrics [] = []
  /\ forall (windows : list WindowMetrics) (key : string),
       windows <> [] -> In key keys ->
       exists mn av mx : Q,
         dict_find (_aggregate_window_metrics windows) (String.append "min_" key) = Some mn
         /\ dict_find (_aggregate_window_metrics windows) (String.append "avg_" key) = Some av
         /\ dict_find (_aggregate_window_metrics windows) (String.append "max_" key) = Some mx
         /\ (mn <= av)%Q /\ (av <= mx)%Q.
Proof.
  split; [reflexivity |].
  intros [| w ws] key Hne Hkey; [congruence |].
  rewrite aggregate_cons.
  destruct (dict_find_stats
              (fun k => avg_of (values_of (w :: ws) k))
              (fun k => min_of (values_of (w :: ws) k))
              (fun k => max_of (values_of (w :: ws) k)) key Hkey)
    as [Ha [Hm HM]].
  cbv zeta in Ha, Hm, HM.
  exists (min_of (values_of (w :: ws) key)),
         (avg_of (values_of (w :: ws) key)),
         (max_of (values_of (w :: ws) key)).
  repeat split; try assumption;
    pose proof (values_of_nonempty w ws key Hkey) as Hv;
    destruct (min_avg_max _ Hv) as [H1 H2];
    unfold min_of, avg_of, max_of;
    destruct (values_of (w :: ws) key); congruence || assumption.
Qed.

(** ** The aggregate as Python computes it *)




(** *** Integer fields *)









(** *** Float fields *)










(** The average of a float field can also exceed the maximum.  The 34
    windows of [harbour_cycle_text] all have density 29/870; their
    floating-point sum divided by 34 lies one unit in the last place
    above each of them, so the reported [avg_density] is greater than
    [max_density], and not below [min_density]. *)
Lemma density_mean_rounds_above_max :
  option_map (fun ws => (length ws, mean_above_max ws "density",
                         mean_below_min ws "density"))
             (sliding_window_analysis analyzer harbour_cycle_text)
  = Some (34, true, false).
Proof. lazy. reflexivity. Qed.

(** The same on the reported numbers, read as floats: on the windows
    of both texts the integer fields [nodes] and [edges] are in order;
    [avg_degree] is out of order on both, [density] on the second. *)
Lemma reported_order_on_examples :
  option_map (fun ws => map (reported_in_order ws)
                            ["nodes"; "edges"; "density"; "avg_degree"])
             (sliding_window_analysis analyzer harbour_text)
  = Some [true; true; true; false]
  /\ option_map (fun ws => map (reported_in_order ws)
                               ["nodes"; "edges"; "density"; "avg_degree"])
                (sliding_window_analysis analyzer harbour_cycle_text)
     = Some [true; true; false; false].
Proof. split; lazy; reflexivity. Qed.

(** ** Full transcripts *)

(** C8: a text without tokens raises nothing and returns the zero
    result: zero metrics, no window, an empty aggregate, an empty
    visualization, zero words and zero lexical diversity. *)
Theorem empty_tokens_zero_result (self : SpeechGraphAnalyzer) (text : string) :
  preprocess_text text = [] ->
  analyze_full_transcript self text
  = Some (mkResult (mkMetrics 0 0 0 0 (mkLoops 0 0 0) 0 0%Q 0%Q None None)
                   [] [] (mkViz [] []) 0 0 0%Q).
Proof.
  intros H. unfold analyze_full_transcript. rewrite H. reflexivity.
Qed.

Lemma empty_tokens_zero_result_witness :
  analyze_full_transcript analyzer "I, 2 3 a !"
  = Some (mkResult (mkMetrics 0 0 0 0 (mkLoops 0 0 0) 0 0%Q 0%Q None None)
                   [] [] (mkViz [] []) 0 0 0%Q).
Proof.
  apply (empty_tokens_zero_result analyzer "I, 2 3 a !"). reflexivity.
Defined.

(** C1, as the code has it: below [window_size] tokens,
    [sliding_window_analysis] returns one record, the metrics of the
    whole token sequence, and [analyze_full_transcript] does not call it:
    its window list and its aggregate are empty. *)
Theorem short_text_windows (self : SpeechGraphAnalyzer) (text : string) :
  length (preprocess_text text) < window_size self ->
  sliding_window_analysis self text = Some [analyze_window (preprocess_text text)]
  /\ exists r, analyze_full_transcript self text = Some r
               /\ window_metrics r = []
               /\ aggregated_metrics r = [].
Proof.
  intros H. split.
  - unfold sliding_window_analysis. apply Nat.ltb_lt in H. rewrite H. reflexivity.
  - unfold analyze_full_transcript.
    destruct (preprocess_text text) as [| w ws] eqn:E.
    + eexists. split; [reflexivity |]. split; reflexivity.
    + assert (Hle : (window_size self <=? length (w :: ws)) = false)
        by (apply Nat.leb_gt, H).
      rewrite Hle. eexists. split; [reflexivity |]. split; reflexivity.
Qed.

Lemma short_text_windows_witness :
  sliding_window_analysis analyzer fox_text
  = Some [analyze_window (preprocess_text fox_text)]
  /\ exists r, analyze_full_transcript analyzer fox_text = Some r
               /\ window_metrics r = []
               /\ aggregated_metrics r = [].
Proof.
  apply (short_text_windows analyzer fox_text). vm_compute. lia.
Defined.

(** The claim of C1 fails at 29 tokens: the window list of the full
    analysis is empty, not one record with offsets 0 and 29. *)
Lemma short_text_no_window :
  length (preprocess_text fox_text) = 29
  /\ option_map window_metrics (analyze_full_transcript analyzer fox_text)
     = Some [].
Proof. split; [vm_compute; reflexivity | lazy; reflexivity]. Qed.

(** The lexical diversity is the node count of the full graph over the
    number of words. *)
Lemma lexical_diversity_ratio (self : SpeechGraphAnalyzer) (text : string) r :
  analyze_full_transcript self text = Some r ->
  lexical_diversity r
  = if 0 <? word_count r then nx.true_div (unique_words r) (word_count r) else 0%Q.
Proof.
  unfold analyze_full_transcript.
  destruct (preprocess_text text) as [| w ws].
  - intros H. inversion H. reflexivity.
  - destruct (if window_size self <=? length (w :: ws)
              then sliding_window_analysis self text else Some []);
      intros H; inversion H; reflexivity.
Qed.

(** From two words on, the lexical diversity lies in (0,1]. *)
Lemma lexical_diversity_range (self : SpeechGraphAnalyzer) (text : string) r :
  analyze_full_transcript self text = Some r -> 2 <= word_count r ->
  (0 < lexical_diversity r /\ lexical_diversity r <= 1)%Q.
Proof.
  unfold analyze_full_transcript.
  destruct (preprocess_text text) as [| w ws] eqn:E.
  - intros H. inversion H. simpl. lia.
  - destruct (if window_size self <=? length (w :: ws)
              then sliding_window_analysis self text else Some []);
      intros H; [injection H as <- | discriminate H].
    cbn [word_count lexical_diversity]. intros H2.
    rewrite (node_count_distinct (w :: ws) H2).
    assert (Hpos : 0 < distinct (w :: ws)).
    { unfold distinct.
      destruct (nodup string_dec (w :: ws)) eqn:En; [| simpl; lia].
      assert (Hin : In w (nodup string_dec (w :: ws)))
        by (apply nodup_In; left; reflexivity).
      rewrite En in Hin. destruct Hin. }
    assert (Hle : distinct (w :: ws) <= length (w :: ws)).
    { unfold distinct. apply NoDup_incl_length; [apply NoDup_nodup |].
      intros x Hx. apply nodup_In in Hx. assumption. }
    change (0 <? length (w :: ws)) with true. cbv iota.
    simpl length in *. split.
    + apply true_div_pos; lia.
    + apply (true_div_le _ _ 1); lia.
Qed.

(** C5 at a one-word text: one word is counted, the graph has no node,
    and the lexical diversity is 0, outside (0,1]. *)
Theorem single_word_lexical_diversity :
  exists r, analyze_full_transcript analyzer "hello" = Some r
            /\ word_count r = 1
            /\ unique_words r = 0
            /\ lexical_diversity r = 0%Q
            /\ ~ (0 < lexical_diversity r)%Q.
Proof.
  eexists. split; [vm_compute; reflexivity |].
  repeat split. intros H. discriminate H.
Qed.

(** ** The example [a b a b c] *)

(** C6: the graph of [a b a b c] has the edges [a -> b] of weight 2,
    [b -> a] of weight 1 and [b -> c] of weight 1, and no other; it has
    3 nodes, [lsc = 2], [lcc = 3], [L1 = 0] and one edge of weight above
    1. *)
Theorem abab_c_example :
  nx.edge_list (build_speech_graph ["a"; "b"; "a"; "b"; "c"])
  = [(("a", "b"), 2%Z); (("b", "a"), 1%Z); (("b", "c"), 1%Z)]
  /\ nx.edges (build_speech_graph ["a"; "b"; "a"; "b"; "c"])
     = [(("a", "b"), 2%Z); (("b", "a"), 1%Z); (("b", "c"), 1%Z)]
  /\ nodes (analyze_window ["a"; "b"; "a"; "b"; "c"]) = 3
  /\ lsc (analyze_window ["a"; "b"; "a"; "b"; "c"]) = 2
  /\ lcc (analyze_window ["a"; "b"; "a"; "b"; "c"]) = 3
  /\ L1 (loops (analyze_window ["a"; "b"; "a"; "b"; "c"])) = 0
  /\ parallel_edges (analyze_window ["a"; "b"; "a"; "b"; "c"]) = 1.
Proof. vm_compute. repeat split; reflexivity. Qed.

(** * Further properties of the code *)

(** ** Weights of the built graph *)

Lemma key_eqb_refl (k : nx.edge_key) : nx.key_eqb k k = true.
Proof. apply key_eqb_eq. reflexivity. Qed.

Lemma key_eqb_neq (a b : nx.edge_key) : a <> b -> nx.key_eqb a b = false.
Proof.
  intros H. destruct (nx.key_eqb a b) eqn:E; [| reflexivity].
  apply key_eqb_eq in E. contradiction.
Qed.

Lemma lookup_set_weight k f es k' :
  lookup_weight (nx.set_weight k f es) k' =
  if nx.key_eqb k' k then option_map f (lookup_weight es k') else lookup_weight es k'.
Proof.
  unfold lookup_weight, nx.set_weight.
  induction es as [| [a w] es IH]; simpl.
  - destruct (nx.key_eqb k' k); reflexivity.
  - destruct (nx.key_eqb a k) eqn:Eak; simpl.
    + apply key_eqb_eq in Eak. subst a.
      destruct (nx.key_eqb k k') eqn:Ek; simpl.
      * apply key_eqb_eq in Ek. subst k'. rewrite key_eqb_refl. reflexivity.
      * rewrite IH. reflexivity.
    + destruct (nx.key_eqb a k') eqn:Eak'; simpl.
      * apply key_eqb_eq in Eak'. subst a. rewrite Eak. reflexivity.
      * rewrite IH. reflexivity.
Qed.

Lemma lookup_app_new es k w k' :
  lookup_weight es k = None ->
  lookup_weight (es ++ [(k, w)]) k' =
  if nx.key_eqb k' k then Some w else lookup_weight es k'.
Proof.
  unfold lookup_weight. induction es as [| [a x] es IH]; simpl; intros H.
  - destruct (nx.key_eqb k k') eqn:E.
    + apply key_eqb_eq in E. subst. rewrite key_eqb_refl. reflexivity.
    + rewrite key_eqb_neq; [reflexivity |]. intros ->.
      rewrite key_eqb_refl in E. discriminate.
  - destruct (nx.key_eqb a k) eqn:Eak; simpl in H; [discriminate |].
    destruct (nx.key_eqb a k') eqn:Eak'; simpl.
    + apply key_eqb_eq in Eak'. subst a. rewrite Eak. reflexivity.
    + apply IH, H.
Qed.

Lemma lookup_has_edge G (p : string * string) :
  nx.has_edge G (fst p) (snd p) = false ->
  lookup_weight (nx.edge_list G) p = None.
Proof.
  destruct p as [u v]. unfold nx.has_edge, lookup_weight. simpl. intros H.
  destruct (find _ _) eqn:E; [| reflexivity].
  apply find_some in E. destruct E as [Hin Hk].
  exfalso. apply not_true_iff_false in H. apply H.
  apply existsb_exists. eexists. split; [exact Hin | exact Hk].
Qed.

Lemma has_edge_lookup G (p : string * string) :
  nx.has_edge G (fst p) (snd p) = true ->
  exists w, lookup_weight (nx.edge_list G) p = Some w.
Proof.
  destruct p as [u v]. unfold nx.has_edge, lookup_weight. simpl. intros H.
  apply existsb_exists in H. destruct H as [e [He Hk]].
  destruct (find _ _) eqn:E.
  - eexists. reflexivity.
  - exfalso. apply (find_none _ _ E) in He. simpl in He.
    apply not_true_iff_false in He. apply He. exact Hk.
Qed.

(** One turn of the loop changes the weight of its own pair only, by 1. *)
Lemma add_pair_weight G (p k : string * string) :
  lookup_weight (nx.edge_list (add_pair G p)) k =
  if nx.key_eqb k p
  then Some (match lookup_weight (nx.edge_list G) p with
             | Some w => (w + 1)%Z
             | None => 1%Z
             end)
  else lookup_weight (nx.edge_list G) k.
Proof.
  unfold add_pair.
  destruct (nx.has_edge G (fst p) (snd p)) eqn:E.
  - simpl. rewrite <- surjective_pairing, lookup_set_weight.
    destruct (nx.key_eqb k p) eqn:Ek; [| reflexivity].
    apply key_eqb_eq in Ek. subst k.
    destruct (has_edge_lookup G p E) as [w Hw]. rewrite Hw. reflexivity.
  - unfold nx.add_edge. rewrite E. simpl. rewrite <- surjective_pairing.
    rewrite (lookup_app_new _ _ _ _ (lookup_has_edge G p E)).
    rewrite (lookup_has_edge G p E). reflexivity.
Qed.

Lemma fold_add_pair_weight ps : forall G k,
  lookup_weight (nx.edge_list (fold_left add_pair ps G)) k =
  match count_occ pair_dec ps k, lookup_weight (nx.edge_list G) k with
  | 0, old => old
  | S c, Some w => Some (w + Z.of_nat (S c))%Z
  | S c, None => Some (Z.of_nat (S c))
  end.
Proof.
  induction ps as [| p ps IH]; intros G k; [simpl; reflexivity |].
  simpl fold_left. rewrite IH, add_pair_weight. simpl count_occ.
  destruct (pair_dec p k) as [-> | Hne].
  - rewrite key_eqb_refl.
    destruct (count_occ pair_dec ps k) as [| c];
      destruct (lookup_weight (nx.edge_list G) k); f_equal; lia.
  - rewrite key_eqb_neq by congruence. reflexivity.
Qed.

(** X3: the weight of an edge is the number of times its source is
    immediately followed by its target; a pair that never occurs is not
    an edge. *)
Theorem edge_weight_counts_pairs (words : list string) (u v : string) :
  edge_weight (build_speech_graph words) u v =
  match follows words u v with
  | 0 => None
  | S c => Some (Z.of_nat (S c))
  end.
Proof.
  unfold edge_weight, follows. rewrite build_fold, fold_add_pair_weight.
  change nx.node with string.
  destruct (count_occ pair_dec (pairs words) (u, v)); reflexivity.
Qed.

Lemma total_weight_app es1 es2 :
  total_weight (es1 ++ es2) = (total_weight es1 + total_weight es2)%Z.
Proof.
  unfold total_weight. induction es1 as [| e es IH]; simpl; [reflexivity |].
  rewrite IH. lia.
Qed.

Lemma total_weight_incr k es :
  NoDup (map fst es) -> In k (map fst es) ->
  total_weight (nx.set_weight k (fun w => (w + 1)%Z) es) = (total_weight es + 1)%Z.
Proof.
  unfold total_weight, nx.set_weight.
  induction es as [| [a w] es IH]; simpl; intros Hnd Hin; [destruct Hin |].
  inversion Hnd as [| x l Hx Hl]; subst.
  destruct (nx.key_eqb a k) eqn:E; simpl.
  - apply key_eqb_eq in E. subst a.
    assert (Hsame : map (fun e : nx.edge_key * Z =>
                           if nx.key_eqb (fst e) k then (fst e, (snd e + 1)%Z) else e) es
                    = es).
    { clear IH Hin Hnd Hl. induction es as [| [b y] es IH']; simpl; [reflexivity |].
      destruct (nx.key_eqb b k) eqn:Eb.
      - apply key_eqb_eq in Eb. subst b. exfalso. apply Hx. left; reflexivity.
      - f_equal. apply IH'. intros H. apply Hx. right; assumption. }
    rewrite Hsame. lia.
  - destruct Hin as [-> | Hin]; [rewrite key_eqb_refl in E; discriminate |].
    rewrite (IH Hl Hin). lia.
Qed.

Lemma add_pair_total_weight G p : wf G ->
  total_weight (nx.edge_list (add_pair G p))
  = (total_weight (nx.edge_list G) + 1)%Z.
Proof.
  intros HG. unfold add_pair.
  destruct (nx.has_edge G (fst p) (snd p)) eqn:E.
  - simpl. apply total_weight_incr; [apply (wf_keys G HG) |].
    apply has_edge_In, E.
  - unfold nx.add_edge. rewrite E. simpl nx.edge_list. rewrite total_weight_app.
    change (total_weight [(fst p, snd p, 1%Z)]) with (1 + 0)%Z. lia.
Qed.

Lemma fold_add_pair_total_weight ps : forall G, wf G ->
  total_weight (nx.edge_list (fold_left add_pair ps G))
  = (total_weight (nx.edge_list G) + Z.of_nat (length ps))%Z.
Proof.
  induction ps as [| p ps IH]; intros G HG; [simpl; lia |].
  simpl fold_left. rewrite (IH _ (add_pair_wf G p HG)), add_pair_total_weight by assumption.
  simpl length. lia.
Qed.

Lemma pairs_length (words : list string) : length (pairs words) = length words - 1.
Proof.
  unfold pairs. rewrite length_combine.
  destruct words as [| a l]; simpl length; simpl tl; lia.
Qed.

(** X4: the weights of the edges add up to the number of adjacent pairs
    of the sequence, [max(0, len(words) - 1)]: every adjacency is counted
    once, and the empty sequence has none. *)
Theorem total_weight_is_pair_count (words : list string) :
  total_weight (nx.edge_list (build_speech_graph words))
  = Z.max 0 (Z.of_nat (length words) - 1).
Proof.
  rewrite build_fold, (fold_add_pair_total_weight _ _ empty_wf), pairs_length.
  change (total_weight (nx.edge_list nx.empty)) with 0%Z. lia.
Qed.

(** ** Size and order of the built graph *)

Lemma add_pair_nodes_always G p : wf G ->
  nx.node_list (add_pair G p)
  = nx.add_node (nx.add_node (nx.node_list G) (fst p)) (snd p).
Proof.
  intros HG. rewrite add_pair_nodes.
  destruct (nx.has_edge G (fst p) (snd p)) eqn:E; [| reflexivity].
  apply has_edge_In in E. rewrite <- surjective_pairing in E.
  destruct p as [u v]. destruct (wf_ends G HG u v E) as [Hu Hv]. simpl.
  unfold nx.add_node.
  apply mem_In in Hu. rewrite Hu. apply mem_In in Hv. rewrite Hv. reflexivity.
Qed.

Lemma fold_add_pair_node_list ps : forall G, wf G ->
  nx.node_list (fold_left add_pair ps G) = fold_left add_ends ps (nx.node_list G).
Proof.
  induction ps as [| p ps IH]; intros G HG; [reflexivity |].
  simpl. rewrite (IH _ (add_pair_wf G p HG)), add_pair_nodes_always by assumption.
  reflexivity.
Qed.

Lemma add_node_present ns n : In n ns -> nx.add_node ns n = ns.
Proof. intros H. unfold nx.add_node. apply mem_In in H. rewrite H. reflexivity. Qed.

Lemma add_node_self ns n : In n (nx.add_node ns n).
Proof. apply add_node_In. right; reflexivity. Qed.

Lemma chain_nodes l : forall a ns, In a ns ->
  fold_left add_ends (pairs (a :: l)) ns = fold_left nx.add_node l ns.
Proof.
  induction l as [| b l IH]; intros a ns Ha; [reflexivity |].
  change (pairs (a :: b :: l)) with ((a, b) :: pairs (b :: l)).
  simpl fold_left. unfold add_ends at 2. simpl fst. simpl snd.
  rewrite (add_node_present ns a Ha). apply IH, add_node_self.
Qed.

(** X5: from two words on, the nodes of the graph are the distinct words
    in the order of their first occurrence. *)
Theorem nodes_in_first_seen_order (words : list string) :
  2 <= length words ->
  nx.node_list (build_speech_graph words) = first_seen words.
Proof.
  intros H. rewrite build_fold, (fold_add_pair_node_list _ _ empty_wf).
  unfold first_seen. destruct words as [| a [| b l]]; simpl in H; try lia.
  change (pairs (a :: b :: l)) with ((a, b) :: pairs (b :: l)).
  simpl fold_left. unfold add_ends at 2. simpl fst. simpl snd.
  rewrite chain_nodes by apply add_node_self. reflexivity.
Qed.

Lemma nodes_in_first_seen_order_witness :
  nx.node_list (build_speech_graph ["to"; "be"; "or"; "not"; "to"; "be"])
  = first_seen ["to"; "be"; "or"; "not"; "to"; "be"].
Proof.
  apply (nodes_in_first_seen_order ["to"; "be"; "or"; "not"; "to"; "be"]).
  simpl. lia.
Defined.

Lemma edge_count_keys G : nx.number_of_edges G = length (keys_of G).
Proof. unfold nx.number_of_edges, keys_of. symmetry. apply length_map. Qed.

Lemma add_node_length ns n : length (nx.add_node ns n) <= length ns + 1.
Proof.
  unfold nx.add_node. destruct (nx.mem n ns); [lia |].
  rewrite length_app. simpl. lia.
Qed.

Lemma add_pair_size G (p : string * string) : wf G ->
  In (fst p) (nx.node_list G) ->
  nx.number_of_nodes G <= nx.number_of_edges G + 1 ->
  nx.number_of_nodes (add_pair G p) <= nx.number_of_edges (add_pair G p) + 1.
Proof.
  intros HG Ha Hsize. rewrite !edge_count_keys in *. unfold nx.number_of_nodes in *.
  rewrite add_pair_keys, add_pair_nodes.
  destruct (nx.has_edge G (fst p) (snd p)); [assumption |].
  rewrite (add_node_present _ _ Ha), length_app. simpl.
  pose proof (add_node_length (nx.node_list G) (snd p)). lia.
Qed.

Lemma add_pair_target G (p : string * string) : wf G ->
  In (snd p) (nx.node_list (add_pair G p)).
Proof.
  intros HG. rewrite (add_pair_nodes_always G p HG). apply add_node_self.
Qed.

Lemma chain_size l : forall a G, wf G -> In a (nx.node_list G) ->
  nx.number_of_nodes G <= nx.number_of_edges G + 1 ->
  nx.number_of_nodes (fold_left add_pair (pairs (a :: l)) G)
  <= nx.number_of_edges (fold_left add_pair (pairs (a :: l)) G) + 1.
Proof.
  induction l as [| b l IH]; intros a G HG Ha Hsize; [assumption |].
  change (pairs (a :: b :: l)) with ((a, b) :: pairs (b :: l)).
  simpl fold_left. apply IH.
  - apply add_pair_wf, HG.
  - apply (add_pair_target G (a, b) HG).
  - apply add_pair_size; assumption.
Qed.

Lemma build_nodes_in_words (words : list string) n :
  In n (nx.node_list (build_speech_graph words)) -> In n words.
Proof.
  intros H. apply build_nodes in H. destruct H as [[u v] [Hp Hn]].
  unfold pairs in Hp. simpl in Hn. destruct Hn as [-> | ->].
  - apply (in_combine_l _ _ _ _ Hp).
  - apply in_combine_r in Hp. destruct words; [destruct Hp | right; assumption].
Qed.

Lemma build_size (words : list string) :
  nx.number_of_edges (build_speech_graph words) <= length words - 1
  /\ nx.number_of_nodes (build_speech_graph words) <= length words
  /\ nx.number_of_nodes (build_speech_graph words)
     <= nx.number_of_edges (build_speech_graph words) + 1.
Proof.
  repeat split.
  - rewrite edge_count_keys, <- pairs_length.
    apply NoDup_incl_length; [apply wf_keys, build_wf |].
    intros k Hk. apply build_keys, Hk.
  - apply NoDup_incl_length; [apply wf_nodes, build_wf |].
    intros n Hn. apply build_nodes_in_words, Hn.
  - rewrite build_fold.
    destruct words as [| a [| b l]];
      [unfold nx.number_of_nodes, nx.number_of_edges; simpl; lia
      | unfold nx.number_of_nodes, nx.number_of_edges; simpl; lia |].
    change (pairs (a :: b :: l)) with ((a, b) :: pairs (b :: l)).
    simpl fold_left. apply chain_size.
    + apply add_pair_wf, empty_wf.
    + apply (add_pair_target nx.empty (a, b) empty_wf).
    + rewrite edge_count_keys, add_pair_keys. unfold nx.number_of_nodes.
      rewrite add_pair_nodes. simpl.
      pose proof (add_node_length (nx.add_node [] a) b) as H1.
      change (nx.add_node [] a) with [a] in *. simpl length in H1. lia.
Qed.

(** X6: the graph of a sequence has at most [max(0, len(words) - 1)]
    edges and at most [len(words)] nodes, and never more nodes than
    edges plus one: every word but the first arrives along an edge. *)
Theorem graph_size_bounds (words : list string) :
  (Z.of_nat (nx.number_of_edges (build_speech_graph words))
   <= Z.max 0 (Z.of_nat (length words) - 1))%Z
  /\ nx.number_of_nodes (build_speech_graph words) <= length words
  /\ nx.number_of_nodes (build_speech_graph words)
     <= nx.number_of_edges (build_speech_graph words) + 1.
Proof.
  destruct (build_size words) as [H1 [H2 H3]].
  split; [lia |]. split; assumption.
Qed.

(** ** The graph of a sequence is connected *)

Lemma chain_path (R : string -> string -> Prop) l : forall a,
  (forall p, In p (pairs (a :: l)) -> R (fst p) (snd p)) ->
  forall x, In x (a :: l) -> clos_refl_trans string R a x.
Proof.
  induction l as [| b l IH]; intros a HR x Hx.
  - destruct Hx as [<- | []]. apply rt_refl.
  - destruct Hx as [<- | Hx]; [apply rt_refl |].
    apply rt_trans with b.
    + apply rt_step. apply (HR (a, b)). left; reflexivity.
    + apply IH; [| assumption]. intros p Hp. apply HR. right; exact Hp.
Qed.

Lemma filter_all {A} (p : A -> bool) (l : list A) :
  (forall x, In x l -> p x = true) -> filter p l = l.
Proof.
  induction l as [| a l IH]; intros H; simpl; [reflexivity |].
  rewrite (H a (or_introl eq_refl)). f_equal. apply IH.
  intros x Hx. apply H. right; assumption.
Qed.

(** Every two nodes of the graph of a sequence are joined in its
    undirected projection. *)
Lemma build_connected (words : list string) x y :
  In x (nx.node_list (build_speech_graph words)) ->
  In y (nx.node_list (build_speech_graph words)) ->
  nx.connected (nx.to_undirected (build_speech_graph words)) x y = true.
Proof.
  set (G := build_speech_graph words). intros Hx Hy.
  pose proof (build_wf words) as HG. fold G in HG.
  destruct words as [| a l] eqn:Ew.
  { destruct Hx. }
  assert (Hlen : 2 <= length (a :: l)).
  { destruct l; [destruct Hx | simpl; lia]. }
  assert (Ha : In a (nx.node_list G)).
  { apply build_nodes. apply pairs_ends; [assumption | left; reflexivity]. }
  assert (Hreach : forall z, In z (nx.node_list G) ->
                   nx.connected (nx.to_undirected G) a z = true).
  { intros z Hz. apply (connected_paths G HG a z Ha).
    apply (path_mono (nx.successors G)); [apply (successors_neighbors G HG) |].
    apply (chain_path (step_rel (nx.successors G)) l a).
    - intros [u v] Hp. unfold step_rel. simpl. apply successors_In.
      apply build_keys, Hp.
    - apply build_nodes_in_words, Hz. }
  apply (connected_trans G HG x a y Hx Ha Hy).
  - apply (connected_sym G HG a x Ha Hx), Hreach, Hx.
  - apply Hreach, Hy.
Qed.

Lemma window_lcc (words : list string) :
  lcc (analyze_window words) = nodes (analyze_window words).
Proof.
  destruct words as [| w ws]; [reflexivity |].
  rewrite analyze_window_cons. cbv zeta. cbn [lcc nodes].
  set (G := build_speech_graph (w :: ws)).
  unfold calculate_lcc. destruct (nx.number_of_nodes G =? 0) eqn:E.
  - apply Nat.eqb_eq in E. congruence.
  - apply Nat.eqb_neq in E. rewrite largest_or_zero.
    assert (HG : wf G) by apply build_wf.
    apply Nat.le_antisymm.
    + apply (component_sizes G HG). lia.
    + unfold nx.connected_components. simpl nx.g_nodes.
      unfold nx.number_of_nodes in *.
      destruct (nx.node_list G) as [| r rest] eqn:EV; [simpl in E; congruence |].
      simpl nx.classes.
      rewrite <- (filter_all (nx.connected (nx.to_undirected G) r) (r :: rest)) at 1.
      * apply largest_ge. left. reflexivity.
      * intros x Hx. apply build_connected; fold G; rewrite EV;
          [left; reflexivity | assumption].
Qed.

(** X7: the largest connected component of a window is the whole graph:
    the reported [lcc] always equals the node count. *)
Theorem lcc_is_node_count (words : list string) :
  lcc (analyze_window words) = nodes (analyze_window words).
Proof. exact (window_lcc words). Qed.

(** ** Edge enumeration *)

Lemma edges_In G e : wf G -> (In e (nx.edges G) <-> In e (nx.edge_list G)).
Proof.
  intros HG. unfold nx.edges. rewrite in_flat_map. split.
  - intros [n [_ He]]. apply filter_In in He. tauto.
  - intros He. exists (fst (fst e)). split.
    + apply (wf_edge_ends G e HG He).
    + apply filter_In. split; [assumption | apply String.eqb_refl].
Qed.

Lemma filter_flat_map {A B} (p : B -> bool) (f : A -> list B) (l : list A) :
  filter p (flat_map f l) = flat_map (fun x => filter p (f x)) l.
Proof.
  induction l as [| a l IH]; simpl; [reflexivity |].
  rewrite filter_app, IH. reflexivity.
Qed.

Lemma flat_map_length {A B} (f : A -> list B) (l : list A) :
  length (flat_map f l) = sum_nat (map (fun x => length (f x)) l).
Proof.
  induction l as [| a l IH]; simpl; [reflexivity |].
  rewrite length_app, IH. reflexivity.
Qed.

Lemma filter_swap {A} (p q : A -> bool) (l : list A) :
  filter p (filter q l) = filter q (filter p l).
Proof.
  induction l as [| a l IH]; simpl; [reflexivity |].
  destruct (q a) eqn:Eq, (p a) eqn:Ep; simpl; rewrite ?Eq, ?Ep, IH; reflexivity.
Qed.

(** Enumerating the edges node by node visits each edge once. *)
Lemma edges_filter_length G (p : nx.edge_key * Z -> bool) : wf G ->
  length (filter p (nx.edges G)) = length (filter p (nx.edge_list G)).
Proof.
  intros HG. unfold nx.edges. rewrite filter_flat_map, flat_map_length.
  rewrite (map_ext _ (fun n => length
             (filter (fun e : nx.edge_key * Z => String.eqb (fst (fst e)) n)
                     (filter p (nx.edge_list G))))).
  - apply (group_count (fun e : nx.edge_key * Z => fst (fst e))).
    + apply wf_nodes, HG.
    + intros e He. apply filter_In in He. apply (wf_edge_ends G e HG), He.
  - intros n. rewrite filter_swap. reflexivity.
Qed.

Lemma edges_length G : wf G -> length (nx.edges G) = nx.number_of_edges G.
Proof.
  intros HG. rewrite <- (filter_true (nx.edges G)).
  rewrite (edges_filter_length G (fun _ => true) HG), filter_true. reflexivity.
Qed.

Lemma lookup_In es k w :
  NoDup (map fst es) -> In (k, w) es -> lookup_weight es k = Some w.
Proof.
  unfold lookup_weight. induction es as [| [a x] es IH]; simpl; intros Hnd Hin;
    [destruct Hin |].
  inversion Hnd as [| y l Hy Hl]; subst.
  destruct Hin as [Heq | Hin].
  - inversion Heq; subst. rewrite key_eqb_refl. reflexivity.
  - destruct (nx.key_eqb a k) eqn:E.
    + apply key_eqb_eq in E. subst a. exfalso. apply Hy.
      apply in_map_iff. exists (k, w). auto.
    + apply IH; assumption.
Qed.

(** An edge of the built graph carries the number of occurrences of its
    pair. *)
Lemma build_edge_weight (words : list string) k w :
  In (k, w) (nx.edge_list (build_speech_graph words)) ->
  w = Z.of_nat (count_occ pair_dec (pairs words) k) /\ In k (pairs words).
Proof.
  intros Hin.
  assert (Hk : In k (pairs words)).
  { apply build_keys. unfold keys_of. apply in_map_iff. exists (k, w). auto. }
  split; [| assumption].
  pose proof (lookup_In _ k w (wf_keys _ (build_wf words)) Hin) as Hl.
  rewrite build_fold, fold_add_pair_weight in Hl. simpl in Hl.
  destruct (count_occ pair_dec (pairs words) k) eqn:Ec.
  - discriminate.
  - inversion Hl. reflexivity.
Qed.

(** ** Metrics of a window, continued *)

(** X8: [parallel_edges] is the number of distinct adjacent pairs that
    occur at least twice in the window. *)
Theorem parallel_edges_are_repeated_pairs (words : list string) :
  parallel_edges (analyze_window words) = length (repeated_pairs words).
Proof.
  destruct words as [| w ws]; [reflexivity |].
  rewrite analyze_window_cons. cbv zeta. cbn [parallel_edges].
  set (words := w :: ws). set (G := build_speech_graph words).
  assert (HG : wf G) by apply build_wf.
  unfold count_parallel_edges. rewrite (edges_filter_length G _ HG).
  rewrite <- (length_map (fun e : nx.edge_key * Z => fst e)).
  apply same_elements_length.
  - apply NoDup_map_NoDup_ForallPairs.
    + intros [k1 w1] [k2 w2] H1 H2 Heq. simpl in Heq. subst k2.
      apply filter_In in H1, H2. destruct H1 as [H1 _], H2 as [H2 _].
      apply build_edge_weight in H1, H2. destruct H1 as [-> _], H2 as [-> _].
      reflexivity.
    + apply NoDup_filter.
      apply (NoDup_map_inv (fun e : nx.edge_key * Z => fst e)), (wf_keys G HG).
  - apply NoDup_filter, NoDup_nodup.
  - intros k. unfold repeated_pairs. rewrite in_map_iff, filter_In, nodup_In. split.
    + intros [[k' x] [Hk He]]. simpl in Hk. subst k'.
      apply filter_In in He. destruct He as [He Hx]. simpl in Hx.
      apply build_edge_weight in He. destruct He as [-> Hin].
      split; [assumption |]. apply Nat.ltb_lt. apply Z.ltb_lt in Hx. lia.
    + intros [Hin Hc]. apply Nat.ltb_lt in Hc.
      assert (Hkey : In k (keys_of G)) by (apply build_keys, Hin).
      unfold keys_of in Hkey. apply in_map_iff in Hkey.
      destruct Hkey as [[k' x] [Hk He]]. simpl in Hk. subst k'.
      exists (k, x). split; [reflexivity |]. apply filter_In. split; [assumption |].
      apply build_edge_weight in He. destruct He as [-> _]. simpl.
      apply Z.ltb_lt. lia.
Qed.

(** X9: a window reports the all-zero record exactly when it has fewer
    than two words; one word alone leaves no trace in the metrics. *)
Theorem zero_metrics_iff_short (words : list string) :
  analyze_window words = zero_metrics <-> length words < 2.
Proof.
  split.
  - intros H. destruct words as [| a [| b l]]; [simpl; lia | simpl; lia |].
    exfalso. assert (Hn : nodes (analyze_window (a :: b :: l)) = 0)
      by (rewrite H; reflexivity).
    rewrite analyze_window_cons in Hn. cbv zeta in Hn. cbn [nodes] in Hn.
    assert (Ha : In a (nx.node_list (build_speech_graph (a :: b :: l)))).
    { apply build_nodes. apply pairs_ends; [simpl; lia | left; reflexivity]. }
    unfold nx.number_of_nodes in Hn.
    destruct (nx.node_list (build_speech_graph (a :: b :: l))); [destruct Ha | discriminate].
  - intros H. destruct words as [| a [| b l]]; [reflexivity | reflexivity |].
    simpl in H. lia.
Qed.

(** ** Sliding windows *)

Lemma window_count (n w s : nat) : s <> 0 -> (n - w + 1 + s - 1) / s = (n - w) / s + 1.
Proof.
  intros Hs. replace (n - w + 1 + s - 1) with (n - w + 1 * s) by lia.
  apply Nat.div_add, Hs.
Qed.

Lemma window_inside (n w s i : nat) : w <= n -> i < (n - w) / s + 1 -> i * s + w <= n.
Proof.
  intros Hw Hi. pose proof (Nat.Div0.mul_div_le (n - w) s) as H.
  assert (i * s <= s * ((n - w) / s)) by nia. lia.
Qed.

Lemma sliding_long (self : SpeechGraphAnalyzer) (text : string) :
  step_size self <> 0 -> window_size self <= length (preprocess_text text) ->
  sliding_window_analysis self text =
  Some (map (fun i =>
               set_offsets
                 (analyze_window
                    (firstn (window_size self) (skipn i (preprocess_text text))))
                 i (i + window_size self))
            (map (fun k => k * step_size self)
                 (seq 0 ((length (preprocess_text text) - window_size self)
                         / step_size self + 1)))).
Proof.
  intros Hs Hw. unfold sliding_window_analysis, range_step.
  apply Nat.ltb_ge in Hw. rewrite Hw.
  apply Nat.eqb_neq in Hs. rewrite Hs. apply Nat.eqb_neq in Hs.
  rewrite (window_count _ _ _ Hs). reflexivity.
Qed.

(** X12: with at least [window_size] tokens and a positive step, there
    are [(len - W) / S + 1] windows; window [i] starts at [i * S], ends
    at [i * S + W] inside the sequence, and holds the metrics of exactly
    the [W] tokens between the two offsets. *)
Theorem window_layout (self : SpeechGraphAnalyzer) (text : string) :
  0 < step_size self ->
  window_size self <= length (preprocess_text text) ->
  exists ws,
    sliding_window_analysis self text = Some ws
    /\ length ws
       = (length (preprocess_text text) - window_size self) / step_size self + 1
    /\ forall i, i < length ws ->
         nth_error ws i
         = Some (set_offsets
                   (analyze_window
                      (firstn (window_size self)
                              (skipn (i * step_size self) (preprocess_text text))))
                   (i * step_size self)
                   (i * step_size self + window_size self))
         /\ i * step_size self + window_size self <= length (preprocess_text text)
         /\ length (firstn (window_size self)
                           (skipn (i * step_size self) (preprocess_text text)))
            = window_size self.
Proof.
  intros Hs Hw. eexists. split; [apply sliding_long; [lia | assumption] |].
  rewrite !length_map, length_seq. split; [reflexivity |].
  intros i Hi. pose proof (window_inside _ _ _ _ Hw Hi) as Hin.
  repeat split.
  - rewrite !nth_error_map, nth_error_seq.
    apply Nat.ltb_lt in Hi. rewrite Hi. reflexivity.
  - assumption.
  - apply firstn_length_le. rewrite length_skipn. lia.
Qed.

Lemma window_layout_witness :
  exists ws,
    sliding_window_analysis analyzer harbour_text = Some ws
    /\ length ws = (length (preprocess_text harbour_text) - 30) / 3 + 1
    /\ forall i, i < length ws ->
         nth_error ws i
         = Some (set_offsets
                   (analyze_window
                      (firstn 30 (skipn (i * 3) (preprocess_text harbour_text))))
                   (i * 3) (i * 3 + 30))
         /\ i * 3 + 30 <= length (preprocess_text harbour_text)
         /\ length (firstn 30 (skipn (i * 3) (preprocess_text harbour_text))) = 30.
Proof.
  apply (window_layout analyzer harbour_text).
  - simpl. lia.
  - vm_compute. lia.
Defined.

Lemma sliding_none (self : SpeechGraphAnalyzer) (text : string) :
  sliding_window_analysis self text = None
  <-> step_size self = 0 /\ window_size self <= length (preprocess_text text).
Proof.
  unfold sliding_window_analysis, range_step.
  destruct (length (preprocess_text text) <? window_size self) eqn:E.
  - apply Nat.ltb_lt in E. split; [discriminate | lia].
  - apply Nat.ltb_ge in E. destruct (step_size self =? 0) eqn:Es.
    + apply Nat.eqb_eq in Es. tauto.
    + apply Nat.eqb_neq in Es. split; [discriminate | tauto].
Qed.

Lemma analyze_none (self : SpeechGraphAnalyzer) (text : string) :
  analyze_full_transcript self text = None
  <-> step_size self = 0
      /\ window_size self <= length (preprocess_text text)
      /\ 0 < length (preprocess_text text).
Proof.
  unfold analyze_full_transcript.
  destruct (preprocess_text text) as [| w ws] eqn:E.
  - simpl. split; [discriminate | lia].
  - destruct (window_size self <=? length (w :: ws)) eqn:Ew.
    + apply Nat.leb_le in Ew.
      destruct (sliding_window_analysis self text) eqn:Es.
      * split; [discriminate |]. intros [H0 _].
        assert (Hn : sliding_window_analysis self text = None)
          by (apply sliding_none; rewrite E; tauto).
        congruence.
      * apply sliding_none in Es. rewrite E in Es. simpl. split; [| reflexivity].
        intros _. simpl in Es. repeat split; try tauto. lia.
    + apply Nat.leb_gt in Ew. split; [discriminate | lia].
Qed.

(** X13: the analysis fails only through the zero step of [range]:
    [sliding_window_analysis] raises exactly when the step is 0 and there
    are at least [window_size] tokens, and [analyze_full_transcript]
    exactly when, besides, there is a token at all. *)
Theorem zero_step_is_the_only_failure (self : SpeechGraphAnalyzer) (text : string) :
  (sliding_window_analysis self text = None
   <-> step_size self = 0 /\ window_size self <= length (preprocess_text text))
  /\ (analyze_full_transcript self text = None
      <-> step_size self = 0
          /\ window_size self <= length (preprocess_text text)
          /\ 0 < length (preprocess_text text)).
Proof. split; [apply sliding_none | apply analyze_none]. Qed.

(** ** Visualization *)

Lemma combine_seq_fst {A} (l : list A) : forall s,
  map fst (combine l (seq s (length l))) = l.
Proof.
  induction l as [| a l IH]; intros s; simpl; [reflexivity |].
  rewrite IH. reflexivity.
Qed.

Lemma combine_seq_snd {A} (l : list A) : forall s,
  map snd (combine l (seq s (length l))) = seq s (length l).
Proof.
  induction l as [| a l IH]; intros s; simpl; [reflexivity |].
  rewrite IH. reflexivity.
Qed.

Lemma map_combine_fst {A B} (f : A -> B) (l : list A) s :
  map (fun ni : A * nat => f (fst ni)) (combine l (seq s (length l))) = map f l.
Proof. rewrite <- (map_map fst f), combine_seq_fst. reflexivity. Qed.

Lemma map_combine_snd {A B} (f : nat -> B) (l : list A) s :
  map (fun ni : A * nat => f (snd ni)) (combine l (seq s (length l)))
  = map f (seq s (length l)).
Proof. rewrite <- (map_map snd f), combine_seq_snd. reflexivity. Qed.

(** Looking a node up gives back its position. *)
Lemma lookup_index_nth (l : list nx.node) u : forall s, In u l ->
  exists k, lookup_index (combine l (seq s (length l))) u = s + k
            /\ nth_error l k = Some u.
Proof.
  induction l as [| a l IH]; intros s Hin; [destruct Hin |].
  simpl. destruct (String.eqb a u) eqn:E.
  - apply String.eqb_eq in E. subst a. exists 0. split; [lia | reflexivity].
  - destruct Hin as [-> | Hin]; [rewrite String.eqb_refl in E; discriminate |].
    destruct (IH (S s) Hin) as [k [Hk Hn]]. exists (S k). split; [lia | exact Hn].
Qed.

(** X15: the nodes of the visualization are numbered 0, 1, 2, ... in node
    order, carry the nodes of the graph as their words, and report a
    degree that is the sum of in- and out-degree; from two words on, the
    node with id [i] is the [i]-th distinct word of the transcript. *)
Theorem visualization_nodes (words : list string) :
  map id (viz_nodes (generate_visualization_data words))
  = seq 0 (nx.number_of_nodes (build_speech_graph words))
  /\ map word (viz_nodes (generate_visualization_data words))
     = nx.node_list (build_speech_graph words)
  /\ Forall (fun n => viz_degree n = viz_in_degree n + viz_out_degree n)
            (viz_nodes (generate_visualization_data words))
  /\ (2 <= length words ->
      map word (viz_nodes (generate_visualization_data words)) = first_seen words).
Proof.
  unfold generate_visualization_data. cbv zeta. cbn [viz_nodes].
  set (G := build_speech_graph words).
  assert (Hw : map word
                 (map (fun ni : nx.node * nat =>
                         mkVizNode (snd ni) (fst ni) (nx.degree G (fst ni))
                                   (nx.in_degree G (fst ni)) (nx.out_degree G (fst ni)))
                      (combine (nx.node_list G) (seq 0 (length (nx.node_list G)))))
               = nx.node_list G).
  { rewrite map_map. simpl.
    rewrite (map_combine_fst (fun x => x)). apply map_id. }
  repeat split.
  - rewrite map_map. simpl. unfold nx.number_of_nodes.
    rewrite (map_combine_snd (fun x => x)). apply map_id.
  - exact Hw.
  - apply Forall_forall. intros n Hn. apply in_map_iff in Hn.
    destruct Hn as [ni [<- _]]. reflexivity.
  - intros H2. transitivity (nx.node_list G); [exact Hw |]. unfold G.
    rewrite build_fold, (fold_add_pair_node_list _ _ empty_wf).
    unfold first_seen. destruct words as [| a [| b l]]; simpl in H2; try lia.
    change (pairs (a :: b :: l)) with ((a, b) :: pairs (b :: l)).
    simpl fold_left. unfold add_ends at 2. simpl fst. simpl snd.
    rewrite chain_nodes by apply add_node_self. reflexivity.
Qed.

Lemma visualization_nodes_witness :
  map word (viz_nodes (generate_visualization_data ["to"; "be"; "or"; "not"; "to"; "be"]))
  = first_seen ["to"; "be"; "or"; "not"; "to"; "be"].
Proof.
  apply (proj2 (proj2 (proj2
           (visualization_nodes ["to"; "be"; "or"; "not"; "to"; "be"])))).
  simpl. lia.
Defined.

(** X16: there is one link per edge; the ids of a link are positions of
    the node list, the words at these positions are the two ends of an
    adjacent pair of the transcript, and the weight of the link is the
    number of occurrences of that pair.  The degrees add up to twice the
    number of links. *)
Theorem visualization_links (words : list string) :
  length (viz_links (generate_visualization_data words))
  = nx.number_of_edges (build_speech_graph words)
  /\ (forall link, In link (viz_links (generate_visualization_data words)) ->
      exists u v,
        nth_error (nx.node_list (build_speech_graph words)) (source link) = Some u
        /\ nth_error (nx.node_list (build_speech_graph words)) (target link) = Some v
        /\ In (u, v) (pairs words)
        /\ weight link = Z.of_nat (follows words u v))
  /\ sum_nat (map viz_degree (viz_nodes (generate_visualization_data words)))
     = 2 * length (viz_links (generate_visualization_data words)).
Proof.
  unfold generate_visualization_data. cbv zeta. cbn [viz_nodes viz_links].
  set (G := build_speech_graph words).
  assert (HG : wf G) by apply build_wf.
  repeat split.
  - rewrite length_map. apply edges_length, HG.
  - intros link Hl. apply in_map_iff in Hl. destruct Hl as [[[u v] w] [<- He]].
    apply (edges_In G _ HG) in He. simpl.
    destruct (wf_edge_ends G _ HG He) as [Hu Hv]. simpl in Hu, Hv.
    destruct (lookup_index_nth (nx.node_list G) u 0 Hu) as [ku [Eu Nu]].
    destruct (lookup_index_nth (nx.node_list G) v 0 Hv) as [kv [Ev Nv]].
    exists u, v. rewrite Eu, Ev. simpl.
    apply build_edge_weight in He. destruct He as [-> Hp].
    repeat split; assumption || reflexivity.
  - match goal with
    | |- _ = 2 * length ?l =>
        assert (Hlen : length l = nx.number_of_edges G)
          by (rewrite length_map; apply (edges_length G HG));
        rewrite Hlen
    end.
    rewrite map_map. cbn [viz_degree].
    rewrite (map_combine_fst (nx.degree G)), <- (degree_sum G HG).
    unfold nx.degree_view. rewrite map_map. reflexivity.
Qed.

(** ** Windows and results *)

Lemma window_size_bounds (words : list string) :
  nodes (analyze_window words) <= length words
  /\ edges (analyze_window words) <= length words - 1
  /\ nodes (analyze_window words) <= edges (analyze_window words) + 1.
Proof.
  destruct words as [| w ws]; [simpl; lia |].
  rewrite analyze_window_cons. cbv zeta. cbn [nodes edges].
  pose proof (build_size (w :: ws)). tauto.
Qed.

(** X14: every record of the window list, whatever the text and the
    configuration, has at most [window_size] nodes and at most
    [max(0, window_size - 1)] edges, is connected ([lcc] is its node
    count), and has no more nodes than edges plus one. *)
Theorem windows_are_bounded (self : SpeechGraphAnalyzer) (text : string) ws m :
  sliding_window_analysis self text = Some ws -> In m ws ->
  nodes m <= window_size self
  /\ (Z.of_nat (edges m) <= Z.max 0 (Z.of_nat (window_size self) - 1))%Z
  /\ lcc m = nodes m
  /\ nodes m <= edges m + 1.
Proof.
  unfold sliding_window_analysis.
  destruct (length (preprocess_text text) <? window_size self) eqn:E.
  - apply Nat.ltb_lt in E. intros H Hm. injection H as <-.
    destruct Hm as [<- | []].
    pose proof (window_size_bounds (preprocess_text text)) as [H1 [H2 H3]].
    pose proof (window_lcc (preprocess_text text)).
    repeat split; try assumption; lia.
  - destruct (range_step _ _) as [starts |]; [| discriminate].
    intros H Hm. injection H as <-. apply in_map_iff in Hm.
    destruct Hm as [i [<- _]]. cbn [set_offsets nodes edges lcc].
    set (window_words := firstn (window_size self) (skipn i (preprocess_text text))).
    pose proof (window_size_bounds window_words) as [H1 [H2 H3]].
    pose proof (window_lcc window_words).
    assert (Hlen : length window_words <= window_size self)
      by (unfold window_words; apply firstn_le_length).
    repeat split; try assumption; lia.
Qed.

Lemma windows_are_bounded_witness :
  nodes (analyze_window ["to"; "be"; "or"; "not"; "to"; "be"]) <= 30
  /\ (Z.of_nat (edges (analyze_window ["to"; "be"; "or"; "not"; "to"; "be"]))
      <= Z.max 0 (Z.of_nat 30 - 1))%Z
  /\ lcc (analyze_window ["to"; "be"; "or"; "not"; "to"; "be"])
     = nodes (analyze_window ["to"; "be"; "or"; "not"; "to"; "be"])
  /\ nodes (analyze_window ["to"; "be"; "or"; "not"; "to"; "be"])
     <= edges (analyze_window ["to"; "be"; "or"; "not"; "to"; "be"]) + 1.
Proof.
  apply (windows_are_bounded analyzer "To be, or not to be"
           [analyze_window ["to"; "be"; "or"; "not"; "to"; "be"]]).
  - reflexivity.
  - left. reflexivity.
Defined.

(** X17: the parts of a result agree: the word count is the number of
    tokens, the full metrics are those of the whole token list, the
    unique-word count is their node count and the number of nodes of the
    visualization, the links are as many as the edges, the aggregate is
    that of the window list, and with at least one token the window list
    is empty exactly when there are fewer than [window_size] tokens. *)
Theorem result_is_consistent (self : SpeechGraphAnalyzer) (text : string) r :
  analyze_full_transcript self text = Some r ->
  word_count r = length (preprocess_text text)
  /\ full_metrics r = analyze_window (preprocess_text text)
  /\ unique_words r = nodes (full_metrics r)
  /\ length (viz_nodes (visualization r)) = unique_words r
  /\ length (viz_links (visualization r)) = edges (full_metrics r)
  /\ aggregated_metrics r = _aggregate_window_metrics (window_metrics r)
  /\ (0 < length (preprocess_text text) ->
      (window_metrics r = [] <-> length (preprocess_text text) < window_size self)).
Proof.
  unfold analyze_full_transcript.
  destruct (preprocess_text text) as [| w ws] eqn:E.
  - intros H. injection H as <-. simpl. repeat split; try reflexivity; lia.
  - set (words := w :: ws).
    destruct (window_size self <=? length words) eqn:Ew.
    + apply Nat.leb_le in Ew.
      destruct (sliding_window_analysis self text) as [wm |] eqn:Es; [| discriminate].
      intros H. injection H as <-.
      cbn [word_count full_metrics unique_words visualization aggregated_metrics
           window_metrics].
      assert (Hs : step_size self <> 0).
      { intros H0. assert (Hn : sliding_window_analysis self text = None)
          by (apply sliding_none; rewrite E; tauto). congruence. }
      rewrite sliding_long in Es by (rewrite ?E; assumption).
      injection Es as <-.
      repeat split.
      * unfold generate_visualization_data. cbv zeta. cbn [viz_nodes].
        rewrite length_map, length_combine, length_seq, Nat.min_id. reflexivity.
      * unfold generate_visualization_data. cbv zeta. cbn [viz_links].
        rewrite length_map. apply edges_length, build_wf.
      * intros Hnil. apply (f_equal (@length _)) in Hnil.
        rewrite !length_map, length_seq in Hnil. simpl in Hnil. lia.
      * intros Hlt. fold words in Ew. lia.
    + apply Nat.leb_gt in Ew. intros H. injection H as <-.
      cbn [word_count full_metrics unique_words visualization aggregated_metrics
           window_metrics].
      repeat split.
      * unfold generate_visualization_data. cbv zeta. cbn [viz_nodes].
        rewrite length_map, length_combine, length_seq, Nat.min_id. reflexivity.
      * unfold generate_visualization_data. cbv zeta. cbn [viz_links].
        rewrite length_map. apply edges_length, build_wf.
      * intros _. exact Ew.
Qed.

Lemma result_is_consistent_witness :
  exists r,
    analyze_full_transcript analyzer "To be, or not to be" = Some r
    /\ (word_count r = length (preprocess_text "To be, or not to be")
        /\ full_metrics r = analyze_window (preprocess_text "To be, or not to be")
        /\ unique_words r = nodes (full_metrics r)
        /\ length (viz_nodes (visualization r)) = unique_words r
        /\ length (viz_links (visualization r)) = edges (full_metrics r)
        /\ aggregated_metrics r = _aggregate_window_metrics (window_metrics r)
        /\ (0 < length (preprocess_text "To be, or not to be") ->
            (window_metrics r = []
             <-> length (preprocess_text "To be, or not to be") < window_size analyzer))).
Proof.
  eexists. split.
  - vm_compute. reflexivity.
  - apply (result_is_consistent analyzer "To be, or not to be").
    vm_compute. reflexivity.
Defined.

(** ** Extremes of the aggregate *)

Lemma min_exact_In (values : list Q) : values <> [] -> In (min_exact values) values.
Proof.
  destruct values as [| x r]; [congruence |]. intros _.
  unfold min_exact. simpl py_min. revert x.
  induction r as [| y r IH]; intros x; simpl; [left; reflexivity |].
  destruct (Qlt_bool y x).
  - right. apply IH.
  - destruct (IH x) as [H | H]; [left; assumption | right; right; assumption].
Qed.

Lemma max_exact_In (values : list Q) : values <> [] -> In (max_exact values) values.
Proof.
  destruct values as [| x r]; [congruence |]. intros _.
  unfold max_exact. simpl py_max. revert x.
  induction r as [| y r IH]; intros x; simpl; [left; reflexivity |].
  destruct (Qlt_bool x y).
  - right. apply IH.
  - destruct (IH x) as [H | H]; [left; assumption | right; right; assumption].
Qed.

Lemma values_of_In windows key x :
  In x (values_of windows key) -> exists w, In w windows /\ get w key = Some x.
Proof.
  unfold values_of. rewrite in_flat_map. intros [w [Hw Hx]]. exists w.
  split; [assumption |]. destruct (get w key); [| destruct Hx].
  destruct Hx as [-> | []]. reflexivity.
Qed.

(** X18: the minimum and the maximum that the aggregate reports for a
    field are the values of that field in two of the windows. *)
Theorem aggregate_extremes_are_attained (windows : list WindowMetrics) (key : string) :
  windows <> [] -> In key keys ->
  exists wmin wmax,
    In wmin windows /\ In wmax windows
    /\ dict_find (_aggregate_window_metrics windows) (String.append "min_" key)
       = get wmin key
    /\ dict_find (_aggregate_window_metrics windows) (String.append "max_" key)
       = get wmax key.
Proof.
  destruct windows as [| w ws]; [congruence |]. intros _ Hkey.
  rewrite aggregate_cons.
  destruct (dict_find_stats
              (fun k => avg_of (values_of (w :: ws) k))
              (fun k => min_of (values_of (w :: ws) k))
              (fun k => max_of (values_of (w :: ws) k)) key Hkey)
    as [_ [Hm HM]].
  cbv zeta in Hm, HM. rewrite Hm, HM.
  pose proof (values_of_nonempty w ws key Hkey) as Hv.
  destruct (values_of_In _ _ _ (min_exact_In _ Hv)) as [wmin [Hin1 Hg1]].
  destruct (values_of_In _ _ _ (max_exact_In _ Hv)) as [wmax [Hin2 Hg2]].
  exists wmin, wmax. rewrite Hg1, Hg2. unfold min_of, max_of.
  destruct (values_of (w :: ws) key); [congruence |]. auto.
Qed.

Lemma aggregate_extremes_are_attained_witness :
  exists wmin wmax,
    In wmin [analyze_window ["to"; "be"; "or"; "not"; "to"; "be"];
             analyze_window ["no"; "no"; "yes"; "yes"; "no"]]
    /\ In wmax [analyze_window ["to"; "be"; "or"; "not"; "to"; "be"];
                analyze_window ["no"; "no"; "yes"; "yes"; "no"]]
    /\ dict_find (_aggregate_window_metrics
                    [analyze_window ["to"; "be"; "or"; "not"; "to"; "be"];
                     analyze_window ["no"; "no"; "yes"; "yes"; "no"]])
                 "min_lsc" = get wmin "lsc"
    /\ dict_find (_aggregate_window_metrics
                    [analyze_window ["to"; "be"; "or"; "not"; "to"; "be"];
                     analyze_window ["no"; "no"; "yes"; "yes"; "no"]])
                 "max_lsc" = get wmax "lsc".
Proof.
  apply (aggregate_extremes_are_attained
           [analyze_window ["to"; "be"; "or"; "not"; "to"; "be"];
            analyze_window ["no"; "no"; "yes"; "yes"; "no"]]
           "lsc").
  - discriminate.
  - simpl. tauto.
Defined.

(** ** Tokens *)

Lemma token_char_cases (c : ascii) :
  implb (kept_char (lower_char c) && negb (is_space (lower_char c)))
        (token_char (lower_char c)) = true.
Proof.
  destruct c as [b0 b1 b2 b3 b4 b5 b6 b7].
  destruct b0, b1, b2, b3, b4, b5, b6, b7; reflexivity.
Qed.

Lemma split_runs_chars (P : ascii -> Prop) l : forall cur,
  Forall P cur -> (forall c, In c l -> is_space c = false -> P c) ->
  forall r, In r (split_runs cur l) -> Forall P r /\ r <> [].
Proof.
  induction l as [| c l IH]; intros cur Hcur Hl r Hr.
  - simpl in Hr. destruct cur as [| a cur']; [destruct Hr |].
    destruct Hr as [<- | []]. split; [apply Forall_rev, Hcur |].
    simpl. intros H. apply app_eq_nil in H. destruct H as [_ H]. discriminate.
  - assert (Hl' : forall c', In c' l -> is_space c' = false -> P c')
      by (intros c' Hc'; apply Hl; right; assumption).
    simpl in Hr. destruct (is_space c) eqn:Es.
    + destruct cur as [| a cur'].
      * apply (IH [] (Forall_nil P) Hl' r Hr).
      * destruct Hr as [<- | Hr].
        -- split; [apply Forall_rev, Hcur |].
           simpl. intros H. apply app_eq_nil in H. destruct H as [_ H]. discriminate.
        -- apply (IH [] (Forall_nil P) Hl' r Hr).
    + apply (IH (c :: cur)); try assumption.
      constructor; [| assumption]. apply Hl; [left; reflexivity | assumption].
Qed.

Lemma string_of_list_length (l : list ascii) :
  String.length (string_of_list_ascii l) = length l.
Proof. induction l as [| c l IH]; simpl; [reflexivity | rewrite IH; reflexivity]. Qed.

Lemma forallb_false_witness {A} (p : A -> bool) (l : list A) :
  forallb p l = false -> exists x, In x l /\ p x = false.
Proof.
  induction l as [| a l IH]; simpl; [discriminate |].
  destruct (p a) eqn:E; simpl; intros H.
  - destruct (IH H) as [x [Hx Hp]]. exists x. auto.
  - exists a. auto.
Qed.

(** X1: every token of an ASCII text (all characters below 128) has at
    least two characters, holds only lowercase letters, digits,
    underscores and apostrophes (no space, no capital, no punctuation),
    and has a character that is not a digit. *)
Theorem tokens_are_well_formed (text : string) (w : string) :
  ascii_text text ->
  In w (preprocess_text text) ->
  2 <= String.length w
  /\ Forall (fun c => token_char c = true) (list_ascii_of_string w)
  /\ exists c, In c (list_ascii_of_string w) /\ is_digit c = false.
Proof.
  unfold preprocess_text. cbv zeta. intros _ H.
  apply in_map_iff in H. destruct H as [r [<- Hr]].
  apply filter_In in Hr. destruct Hr as [Hr Hok].
  apply andb_true_iff in Hok. destruct Hok as [Hlen Hdig].
  apply Nat.ltb_lt in Hlen. apply negb_true_iff in Hdig.
  rewrite string_of_list_length, list_ascii_of_string_of_list_ascii.
  split; [lia |]. split.
  - apply (split_runs_chars (fun c => token_char c = true)
             (filter kept_char (map lower_char (list_ascii_of_string text))) []);
      [constructor | | exact Hr].
    intros c Hc Hs. apply filter_In in Hc. destruct Hc as [Hc Hk].
    apply in_map_iff in Hc. destruct Hc as [c0 [<- _]].
    pose proof (token_char_cases c0) as Hcase.
    rewrite Hk, Hs in Hcase. exact Hcase.
  - unfold isdigit in Hdig. destruct r as [| a r]; [simpl in Hlen; lia |].
    apply forallb_false_witness, Hdig.
Qed.

Lemma tokens_are_well_formed_witness :
  2 <= String.length "it's"
  /\ Forall (fun c => token_char c = true) (list_ascii_of_string "it's")
  /\ exists c, In c (list_ascii_of_string "it's") /\ is_digit c = false.
Proof.
  apply (tokens_are_well_formed "Well -- it's 42, isn't it?" "it's").
  - reflexivity.
  - vm_compute. tauto.
Defined.

(** ** The service *)

Lemma lstrip_length (l : list ascii) : length (lstrip l) <= length l.
Proof.
  induction l as [| c l IH]; simpl; [lia |].
  destruct (is_space c); simpl; lia.
Qed.

Lemma list_of_string_length (s : string) :
  length (list_ascii_of_string s) = String.length s.
Proof. induction s as [| c s IH]; simpl; [reflexivity | rewrite IH; reflexivity]. Qed.

Lemma strip_length (s : string) : length (strip s) <= String.length s.
Proof.
  unfold strip. rewrite length_rev.
  pose proof (lstrip_length (rev (lstrip (list_ascii_of_string s)))) as H1.
  rewrite length_rev in H1.
  pose proof (lstrip_length (list_ascii_of_string s)) as H2.
  rewrite list_of_string_length in H2. lia.
Qed.

(** The service's analyzer, with its step of 3, never raises. *)
Lemma analyzer_returns (t : string) :
  exists r, analyze_full_transcript analyzer t = Some r.
Proof.
  destruct (analyze_full_transcript analyzer t) as [r |] eqn:E; [eauto |].
  apply analyze_none in E. destruct E as [E _]. discriminate E.
Qed.

(** X19: [/analyze] answers 400 exactly when the text has fewer than five
    characters once stripped (the test for the empty text adds nothing),
    and otherwise succeeds with the result of the full analysis; it never
    answers 500. *)
Theorem analyze_speech_outcomes (request : AnalysisRequest) :
  exists r,
    analyze_full_transcript analyzer (text request) = Some r
    /\ analyze_speech request
       = if length (strip (text request)) <? 5
         then HTTPException 400
                "Text too short for analysis (minimum 5 characters required)"
         else AnalysisResponse true r "Analysis completed successfully".
Proof.
  destruct (analyzer_returns (text request)) as [r Hr]. exists r.
  split; [assumption |]. unfold analyze_speech. rewrite Hr.
  destruct (length (strip (text request)) <? 5) eqn:E.
  - rewrite orb_true_r. reflexivity.
  - apply Nat.ltb_ge in E. pose proof (strip_length (text request)).
    assert (H0 : (String.length (text request) =? 0) = false)
      by (apply Nat.eqb_neq; lia).
    rewrite H0. reflexivity.
Qed.

(** X20: [/analyze/realtime] answers 400 exactly for the empty text, and
    otherwise returns the visualization, the full metrics and the word
    count that the full analysis of the same text returns. *)
Theorem analyze_realtime_matches_full (request : AnalysisRequest) :
  exists r,
    analyze_full_transcript analyzer (text request) = Some r
    /\ analyze_realtime request
       = if String.length (text request) =? 0
         then HTTPException 400 "Text is required"
         else AnalysisResponse true
                (mkRealtime (visualization r) (full_metrics r) (word_count r))
                "Real-time analysis completed".
Proof.
  destruct (analyzer_returns (text request)) as [r Hr]. exists r.
  split; [assumption |]. unfold analyze_realtime.
  destruct (String.length (text request) =? 0); [reflexivity |].
  cbv zeta. unfold analyze_full_transcript in Hr.
  destruct (preprocess_text (text request)) as [| w ws].
  - injection Hr as <-. reflexivity.
  - destruct (if window_size analyzer <=? length (w :: ws)
              then sliding_window_analysis analyzer (text request) else Some []);
      [| discriminate].
    injection Hr as <-. reflexivity.
Qed.

(** ** Tokenizing twice *)

Lemma token_char_stable (c : ascii) :
  implb (token_char c)
        (Ascii.eqb (lower_char c) c && kept_char c && negb (is_space c)) = true.
Proof.
  destruct c as [b0 b1 b2 b3 b4 b5 b6 b7].
  destruct b0, b1, b2, b3, b4, b5, b6, b7; reflexivity.
Qed.

Lemma token_char_facts (c : ascii) : token_char c = true ->
  lower_char c = c /\ kept_char c = true /\ is_space c = false.
Proof.
  intros H. pose proof (token_char_stable c) as Hc. rewrite H in Hc. simpl in Hc.
  apply andb_true_iff in Hc. destruct Hc as [Hc Hs].
  apply andb_true_iff in Hc. destruct Hc as [Hl Hk].
  apply Ascii.eqb_eq in Hl. apply negb_true_iff in Hs. auto.
Qed.

Lemma plain_char_facts (c : ascii) : plain_char c ->
  lower_char c = c /\ kept_char c = true.
Proof.
  intros [H | ->]; [| split; reflexivity].
  destruct (token_char_facts c H) as [H1 [H2 _]]. auto.
Qed.

Lemma join_runs_plain (runs : list (list ascii)) :
  Forall (Forall (fun c => token_char c = true)) runs ->
  Forall plain_char (join_runs runs).
Proof.
  induction 1 as [| r rest Hr Hrest IH]; [constructor |].
  assert (Hp : Forall plain_char r).
  { apply Forall_forall. intros c Hc. left.
    rewrite Forall_forall in Hr. apply Hr, Hc. }
  destruct rest as [| r' rest']; [exact Hp |].
  change (join_runs (r :: r' :: rest')) with (r ++ " "%char :: join_runs (r' :: rest')).
  apply Forall_app. split; [exact Hp |].
  constructor; [right; reflexivity | exact IH].
Qed.

Lemma map_lower_plain (l : list ascii) :
  Forall plain_char l -> map lower_char l = l.
Proof.
  induction 1 as [| c l Hc Hl IH]; simpl; [reflexivity |].
  destruct (plain_char_facts c Hc) as [H1 _]. rewrite H1, IH. reflexivity.
Qed.

Lemma filter_kept_plain (l : list ascii) :
  Forall plain_char l -> filter kept_char l = l.
Proof.
  induction 1 as [| c l Hc Hl IH]; simpl; [reflexivity |].
  destruct (plain_char_facts c Hc) as [_ H2]. rewrite H2, IH. reflexivity.
Qed.

Lemma split_runs_word r : Forall (fun c => token_char c = true) r ->
  forall cur l, split_runs cur (r ++ l) = split_runs (rev r ++ cur) l.
Proof.
  induction 1 as [| c r Hc Hr IH]; intros cur l; [reflexivity |].
  simpl. destruct (token_char_facts c Hc) as [_ [_ Hs]]. rewrite Hs.
  rewrite IH, <- app_assoc. reflexivity.
Qed.

Lemma split_join (runs : list (list ascii)) :
  Forall (fun r => Forall (fun c => token_char c = true) r /\ r <> []) runs ->
  split (join_runs runs) = runs.
Proof.
  unfold split. induction 1 as [| r rest [Hr Hne] Hrest IH]; [reflexivity |].
  assert (Hrev : rev r <> []).
  { intros H. apply Hne. rewrite <- (rev_involutive r), H. reflexivity. }
  destruct rest as [| r' rest'].
  - simpl join_runs. rewrite <- (app_nil_r r) at 1.
    rewrite (split_runs_word r Hr), app_nil_r. simpl.
    destruct (rev r) eqn:E; [congruence |]. rewrite <- E, rev_involutive. reflexivity.
  - change (join_runs (r :: r' :: rest')) with (r ++ " "%char :: join_runs (r' :: rest')).
    rewrite (split_runs_word r Hr), app_nil_r.
    change (split_runs (rev r) (" "%char :: join_runs (r' :: rest')))
      with (match rev r with
            | [] => split_runs [] (join_runs (r' :: rest'))
            | _ => rev (rev r) :: split_runs [] (join_runs (r' :: rest'))
            end).
    destruct (rev r) eqn:E; [congruence |]. rewrite <- E, rev_involutive, IH.
    reflexivity.
Qed.

Lemma list_of_string_app (s1 s2 : string) :
  list_ascii_of_string (s1 ++ s2)%string
  = list_ascii_of_string s1 ++ list_ascii_of_string s2.
Proof. induction s1 as [| c s1 IH]; simpl; [reflexivity | rewrite IH; reflexivity]. Qed.

Lemma list_of_concat (runs : list (list ascii)) :
  list_ascii_of_string (String.concat " " (map string_of_list_ascii runs))
  = join_runs runs.
Proof.
  induction runs as [| r rest IH]; [reflexivity |].
  destruct rest as [| r' rest'].
  - simpl. apply list_ascii_of_string_of_list_ascii.
  - change (String.concat " " (map string_of_list_ascii (r :: r' :: rest')))
      with (string_of_list_ascii r ++ " "
            ++ String.concat " " (map string_of_list_ascii (r' :: rest')))%string.
    rewrite !list_of_string_app, IH, list_ascii_of_string_of_list_ascii.
    reflexivity.
Qed.

(** X2: tokenizing is idempotent on ASCII text (all characters below
    128): the tokens of such a text, joined by single spaces and
    tokenized again, are the same tokens. *)
Theorem tokenizing_twice (text : string) :
  ascii_text text ->
  preprocess_text (String.concat " " (preprocess_text text)) = preprocess_text text.
Proof.
  intros _. unfold preprocess_text at 2 3. cbv zeta.
  set (runs := filter (fun w => (1 <? length w) && negb (isdigit w))
                      (split (filter kept_char
                                (map lower_char (list_ascii_of_string text))))).
  assert (Hruns : Forall (fun r => (Forall (fun c => token_char c = true) r /\ r <> [])
                                   /\ (1 <? length r) && negb (isdigit r) = true) runs).
  { apply Forall_forall. intros r Hr. unfold runs in Hr.
    apply filter_In in Hr. destruct Hr as [Hr Hok]. split; [| exact Hok].
    apply (split_runs_chars (fun c => token_char c = true)
             (filter kept_char (map lower_char (list_ascii_of_string text))) []);
      [constructor | | exact Hr].
    intros c Hc Hs. apply filter_In in Hc. destruct Hc as [Hc Hk].
    apply in_map_iff in Hc. destruct Hc as [c0 [<- _]].
    pose proof (token_char_cases c0) as Hcase.
    rewrite Hk, Hs in Hcase. exact Hcase. }
  unfold preprocess_text. cbv zeta. rewrite list_of_concat.
  assert (Hplain : Forall plain_char (join_runs runs)).
  { apply join_runs_plain. apply Forall_forall. intros r Hr.
    rewrite Forall_forall in Hruns. apply Hruns, Hr. }
  rewrite (map_lower_plain _ Hplain), (filter_kept_plain _ Hplain).
  rewrite split_join.
  - f_equal. apply filter_all. intros r Hr.
    rewrite Forall_forall in Hruns. apply Hruns, Hr.
  - apply Forall_forall. intros r Hr.
    rewrite Forall_forall in Hruns. apply Hruns, Hr.
Qed.

Lemma tokenizing_twice_witness :
  preprocess_text (String.concat " " (preprocess_text "Well -- it's 42, isn't it?"))
  = preprocess_text "Well -- it's 42, isn't it?".
Proof.
  apply (tokenizing_twice "Well -- it's 42, isn't it?").
  reflexivity.
Defined.

(** ** Two-word cycles *)

Lemma cycles_from_long G r allowed fuel : forall path c,
  In c (nx.cycles_from G fuel r allowed path) -> length path <= length c.
Proof.
  induction fuel as [| f IH]; intros path c Hc; [destruct path; destruct Hc |].
  destruct path as [| cur rest]; [destruct Hc |].
  simpl in Hc. apply in_flat_map in Hc. destruct Hc as [v [_ Hc]].
  destruct (String.eqb v r).
  - destruct Hc as [<- | []]. simpl. rewrite length_app, length_rev. simpl. lia.
  - match type of Hc with
    | In _ (if ?b then _ else _) => destruct b; [| destruct Hc]
    end.
    apply IH in Hc. simpl in *. lia.
Qed.

Lemma two_cycles_app cs1 cs2 :
  two_cycles (cs1 ++ cs2) = two_cycles cs1 + two_cycles cs2.
Proof. unfold two_cycles. rewrite filter_app, length_app. reflexivity. Qed.

Lemma two_cycles_flat_map {A} (f : A -> list (list nx.node)) (l : list A) :
  two_cycles (flat_map f l) = sum_nat (map (fun x => two_cycles (f x)) l).
Proof.
  induction l as [| a l IH]; simpl; [reflexivity |].
  rewrite two_cycles_app, IH. reflexivity.
Qed.

Lemma two_cycles_long cs :
  (forall c, In c cs -> 3 <= length c) -> two_cycles cs = 0.
Proof.
  unfold two_cycles. induction cs as [| c cs IH]; intros H; simpl; [reflexivity |].
  assert (Hc : 3 <= length c) by (apply H; left; reflexivity).
  destruct (length c =? 2) eqn:E; [apply Nat.eqb_eq in E; lia |].
  apply IH. intros c' Hc'. apply H. right; assumption.
Qed.

Lemma sum_indicator {A} (p : A -> bool) (l : list A) :
  sum_nat (map (fun x => if p x then 1 else 0) l) = length (filter p l).
Proof.
  induction l as [| a l IH]; simpl; [reflexivity |].
  destruct (p a); simpl; rewrite IH; reflexivity.
Qed.

Lemma count_in_NoDup (r : string) (l : list string) : NoDup l ->
  length (filter (fun x => String.eqb x r) l) = if nx.mem r l then 1 else 0.
Proof.
  induction 1 as [| a l Ha Hl IH]; simpl; [reflexivity |].
  rewrite (String.eqb_sym r a). destruct (String.eqb a r) eqn:E; simpl.
  - apply String.eqb_eq in E. subst a. rewrite IH.
    assert (Hm : nx.mem r l = false).
    { destruct (nx.mem r l) eqn:Em; [| reflexivity].
      apply mem_In in Em. contradiction. }
    rewrite Hm. reflexivity.
  - exact IH.
Qed.

Lemma NoDup_map_injective {A B} (f : A -> B) (l : list A) x y :
  NoDup (map f l) -> In x l -> In y l -> f x = f y -> x = y.
Proof.
  induction l as [| a l IH]; simpl; intros Hnd Hx Hy Heq; [destruct Hx |].
  inversion Hnd as [| b l' Hb Hl]; subst.
  destruct Hx as [-> | Hx], Hy as [-> | Hy]; trivial.
  - exfalso. apply Hb. rewrite Heq. apply in_map, Hy.
  - exfalso. apply Hb. rewrite <- Heq. apply in_map, Hx.
  - apply IH; assumption.
Qed.

Lemma successors_NoDup G u : wf G -> NoDup (nx.successors G u).
Proof.
  intros HG. unfold nx.successors.
  apply NoDup_map_NoDup_ForallPairs.
  - intros e1 e2 H1 H2 Heq. apply filter_In in H1, H2.
    destruct H1 as [H1 Hs1], H2 as [H2 Hs2].
    apply String.eqb_eq in Hs1, Hs2.
    apply (NoDup_map_injective (fun e : nx.edge_key * Z => fst e) (nx.edge_list G));
      try assumption; [apply (wf_keys G HG) |].
    destruct e1 as [[a1 b1] w1], e2 as [[a2 b2] w2]. simpl in *. congruence.
  - apply NoDup_filter.
    apply (NoDup_map_inv (fun e : nx.edge_key * Z => fst e)), (wf_keys G HG).
Qed.

Lemma mem_successors G u v : nx.mem v (nx.successors G u) = nx.has_edge G u v.
Proof.
  destruct (nx.has_edge G u v) eqn:E.
  - apply mem_In, successors_In, has_edge_In, E.
  - destruct (nx.mem v (nx.successors G u)) eqn:Em; [| reflexivity].
    apply mem_In, successors_In, has_edge_In in Em. congruence.
Qed.

(** From [v], one step away from the root, the cycles of length 2 are
    the edges back to the root: one or none. *)
Lemma two_cycles_second G r allowed f v : wf G ->
  two_cycles (nx.cycles_from G (S f) r allowed [v; r])
  = if nx.has_edge G v r then 1 else 0.
Proof.
  intros HG. simpl nx.cycles_from. rewrite two_cycles_flat_map.
  rewrite (map_ext _ (fun x => if String.eqb x r then 1 else 0)).
  - rewrite sum_indicator, (count_in_NoDup r _ (successors_NoDup G v HG)).
    rewrite mem_successors. reflexivity.
  - intros x. destruct (String.eqb x r); [reflexivity |].
    match goal with
    | |- two_cycles (if ?b then _ else _) = _ => destruct b; [| reflexivity]
    end.
    apply two_cycles_long. intros c Hc. apply cycles_from_long in Hc.
    simpl in Hc. lia.
Qed.

Lemma two_cycles_first G r allowed fuel : wf G ->
  2 <= fuel \/ allowed = [] ->
  two_cycles (nx.cycles_from G fuel r allowed [r])
  = length (filter (fun v => negb (String.eqb v r) && nx.mem v allowed
                             && nx.has_edge G v r)
                   (nx.successors G r)).
Proof.
  intros HG Hfuel. destruct fuel as [| f].
  - destruct Hfuel as [Hf | ->]; [lia |]. simpl.
    symmetry. unfold two_cycles. simpl.
    rewrite (filter_ext _ (fun _ => false)), filter_false; [reflexivity |].
    intros v. rewrite andb_false_r. reflexivity.
  - simpl nx.cycles_from. rewrite two_cycles_flat_map, <- sum_indicator.
    f_equal. apply map_ext. intros v.
    destruct (String.eqb v r) eqn:Ev; simpl; [reflexivity |].
    rewrite andb_true_r.
    destruct (nx.mem v allowed) eqn:Em; simpl; [| reflexivity].
    destruct f as [| f'].
    + destruct Hfuel as [Hf | ->]; [lia | discriminate].
    + apply two_cycles_second, HG.
Qed.

Lemma two_cycles_rooted G roots : wf G ->
  NoDup roots -> length roots <= nx.number_of_nodes G ->
  two_cycles (nx.cycles_rooted G roots)
  = length (filter (mutual G) (ordered_pairs roots)).
Proof.
  intros HG. induction roots as [| r rest IH]; intros Hnd Hlen; [reflexivity |].
  inversion Hnd as [| x l Hr Hrest]; subst.
  simpl nx.cycles_rooted. simpl ordered_pairs.
  rewrite two_cycles_app, filter_app, length_app.
  rewrite IH by (simpl in Hlen; assumption || lia).
  f_equal. rewrite two_cycles_first; [| assumption |].
  - rewrite filter_map_swap, length_map.
    apply same_elements_length.
    + apply NoDup_filter, successors_NoDup, HG.
    + apply NoDup_filter, Hrest.
    + intros v. rewrite !filter_In. unfold mutual. simpl. split.
      * intros [Hs Hc]. apply andb_true_iff in Hc. destruct Hc as [Hc Hb].
        apply andb_true_iff in Hc. destruct Hc as [_ Hm]. apply mem_In in Hm.
        split; [assumption |]. apply andb_true_iff. split; [| exact Hb].
        apply has_edge_In. apply successors_In in Hs. exact Hs.
      * intros [Hm Hc]. apply andb_true_iff in Hc. destruct Hc as [Hs Hb].
        split; [apply successors_In, has_edge_In, Hs |].
        rewrite Hb, andb_true_r. apply andb_true_iff. split; [| apply mem_In, Hm].
        apply negb_true_iff. destruct (String.eqb v r) eqn:E; [| reflexivity].
        apply String.eqb_eq in E. subst v. contradiction.
  - simpl in Hlen. destruct rest as [| b rest']; [right; reflexivity |].
    left. simpl in Hlen. lia.
Qed.

(** X10: [L2] is the number of unordered pairs of distinct words of the
    window that follow each other in both orders. *)
Theorem L2_counts_mutual_pairs (words : list string) :
  L2 (loops (analyze_window words))
  = length (filter (mutual (build_speech_graph words))
                   (ordered_pairs (nx.node_list (build_speech_graph words)))).
Proof.
  destruct words as [| w ws]; [reflexivity |].
  rewrite analyze_window_cons. cbv zeta. cbn [loops count_loops L2].
  set (G := build_speech_graph (w :: ws)).
  assert (HG : wf G) by apply build_wf.
  apply (two_cycles_rooted G (nx.node_list G) HG).
  - apply wf_nodes, HG.
  - unfold nx.number_of_nodes. lia.
Qed.

(** ** Transcripts without a repeated word *)

Lemma pairs_in_words (words : list string) u v :
  In (u, v) (pairs words) -> In u words /\ In v words.
Proof.
  unfold pairs. intros H. split.
  - apply (in_combine_l _ _ _ _ H).
  - apply in_combine_r in H. destruct words; [destruct H | right; assumption].
Qed.

Lemma index_in_other a u l : a <> u -> index_in u (a :: l) = S (index_in u l).
Proof.
  intros H. simpl. destruct (String.eqb a u) eqn:E; [| reflexivity].
  apply String.eqb_eq in E. contradiction.
Qed.

(** Without repetition, an adjacent pair moves one position forward. *)
Lemma pairs_step (words : list string) : NoDup words -> forall u v,
  In (u, v) (pairs words) -> index_in v words = S (index_in u words).
Proof.
  induction words as [| a l IH]; intros Hnd u v H; [destruct H |].
  destruct l as [| b l]; [destruct H |].
  inversion Hnd as [| x y Ha Hl]; subst.
  change (pairs (a :: b :: l)) with ((a, b) :: pairs (b :: l)) in H.
  destruct H as [Heq | H].
  - inversion Heq; subst u v. simpl index_in at 2. rewrite String.eqb_refl.
    rewrite index_in_other.
    + simpl. rewrite String.eqb_refl. reflexivity.
    + intros ->. apply Ha. left; reflexivity.
  - destruct (pairs_in_words (b :: l) u v H) as [Hu Hv].
    rewrite (index_in_other a v (b :: l)), (index_in_other a u (b :: l)).
    + f_equal. apply (IH Hl u v H).
    + intros ->. contradiction.
    + intros ->. contradiction.
Qed.

Lemma index_in_injective (l : list string) u v :
  In u l -> In v l -> index_in u l = index_in v l -> u = v.
Proof.
  induction l as [| a l IH]; intros Hu Hv H; [destruct Hu |].
  simpl in H.
  destruct (String.eqb a u) eqn:Eu, (String.eqb a v) eqn:Ev; try discriminate.
  - apply String.eqb_eq in Eu, Ev. congruence.
  - apply IH.
    + destruct Hu as [-> | Hu]; [rewrite String.eqb_refl in Eu; discriminate | assumption].
    + destruct Hv as [-> | Hv]; [rewrite String.eqb_refl in Ev; discriminate | assumption].
    + lia.
Qed.

Section NoRepetition.

Variable words : list string.
Hypothesis Hnd : NoDup words.

Let G := build_speech_graph words.

Lemma edge_moves_forward u v :
  In v (nx.successors G u) -> index_in v words = S (index_in u words).
Proof.
  intros H. apply successors_In in H. apply build_keys in H.
  apply (pairs_step words Hnd u v H).
Qed.

Lemma path_moves_forward u v :
  path (nx.successors G) u v -> index_in u words <= index_in v words.
Proof.
  intros H. induction H as [a b Hab | a | a b c _ IH1 _ IH2].
  - apply edge_moves_forward in Hab. lia.
  - lia.
  - lia.
Qed.

(** A search that reports a cycle has walked back to its root. *)
Lemma cycles_from_walk r allowed fuel : forall cur rest c,
  In c (nx.cycles_from G fuel r allowed (cur :: rest)) ->
  index_in cur words < index_in r words.
Proof.
  induction fuel as [| f IH]; intros cur rest c Hc; [destruct Hc |].
  simpl in Hc. apply in_flat_map in Hc. destruct Hc as [v [Hv Hc]].
  apply edge_moves_forward in Hv.
  destruct (String.eqb v r) eqn:E.
  - apply String.eqb_eq in E. subst v. lia.
  - match type of Hc with
    | In _ (if ?b then _ else _) => destruct b; [| destruct Hc]
    end.
    apply IH in Hc. lia.
Qed.

Lemma no_cycles : nx.simple_cycles G = [].
Proof.
  unfold nx.simple_cycles. generalize (nx.node_list G) as roots.
  induction roots as [| r rest IH]; [reflexivity |].
  simpl. rewrite IH, app_nil_r.
  destruct (nx.cycles_from G (nx.number_of_nodes G) r rest [r]) as [| c cs] eqn:E;
    [reflexivity |].
  assert (Hc : In c (nx.cycles_from G (nx.number_of_nodes G) r rest [r]))
    by (rewrite E; left; reflexivity).
  apply cycles_from_walk in Hc. lia.
Qed.

Lemma strongly_connected_same u v :
  In u (nx.node_list G) -> In v (nx.node_list G) ->
  nx.strongly_connected G u v = true -> u = v.
Proof.
  intros Hu Hv H.
  apply (strongly_connected_paths G (build_wf words) u v Hu Hv) in H.
  destruct H as [H1 H2]. apply path_moves_forward in H1, H2.
  apply (index_in_injective words); [| | lia];
    apply build_nodes_in_words; assumption.
Qed.

Lemma singleton_components : 2 <= length words -> calculate_lsc G = 1.
Proof.
  intros Hlen. pose proof (build_wf words) as HG. fold G in HG.
  assert (Hn : 0 < nx.number_of_nodes G).
  { unfold G. rewrite (node_count_distinct words Hlen). unfold distinct.
    rewrite (nodup_fixed_point string_dec Hnd). lia. }
  unfold calculate_lsc. destruct (nx.number_of_nodes G =? 0) eqn:E;
    [apply Nat.eqb_eq in E; lia |].
  rewrite largest_or_zero. apply Nat.le_antisymm.
  - apply largest_le. intros c Hc. unfold nx.strongly_connected_components in Hc.
    apply classes_shape in Hc. destruct Hc as [r [Hr ->]].
    rewrite (filter_ext_in _ (fun x => String.eqb x r)).
    + transitivity (if nx.mem r (nx.node_list G) then 1 else 0).
      * apply Nat.eq_le_incl. exact (count_in_NoDup r _ (wf_nodes G HG)).
      * destruct (nx.mem r (nx.node_list G)); lia.
    + intros x Hx. destruct (nx.strongly_connected G r x) eqn:Es.
      * apply (strongly_connected_same r x Hr Hx) in Es. subst x.
        symmetry. apply String.eqb_refl.
      * destruct (String.eqb x r) eqn:Ex; [| reflexivity].
        apply String.eqb_eq in Ex. subst x.
        rewrite (strongly_connected_refl G r) in Es. discriminate.
  - apply (component_sizes G HG Hn).
Qed.

End NoRepetition.

Lemma combine_NoDup {A B} (l : list A) (l' : list B) :
  NoDup l -> NoDup (combine l l').
Proof.
  intros H. revert l'. induction H as [| a l Ha Hl IH]; intros l'; [constructor |].
  destruct l' as [| b l']; [constructor |]. simpl. constructor; [| apply IH].
  intros Hin. apply Ha. apply (in_combine_l _ _ _ _ Hin).
Qed.

(** X11: a window of at least two words, none of them repeated, is a
    simple path: as many nodes as words, one edge fewer, no loop of any
    length, no parallel edge, [lsc = 1] and [lcc] the number of words. *)
Theorem repetition_free_window (words : list string) :
  NoDup words -> 2 <= length words ->
  nodes (analyze_window words) = length words
  /\ edges (analyze_window words) = length words - 1
  /\ lsc (analyze_window words) = 1
  /\ lcc (analyze_window words) = length words
  /\ loops (analyze_window words) = mkLoops 0 0 0
  /\ parallel_edges (analyze_window words) = 0.
Proof.
  intros Hnd Hlen.
  assert (Hnodes : nodes (analyze_window words) = length words).
  { rewrite (node_count_window words Hlen). unfold distinct.
    rewrite (nodup_fixed_point string_dec Hnd). reflexivity. }
  assert (Hpar : parallel_edges (analyze_window words) = 0).
  { destruct words as [| w ws]; [reflexivity |].
    rewrite analyze_window_cons. cbv zeta. cbn [parallel_edges].
    set (G := build_speech_graph (w :: ws)).
    unfold count_parallel_edges. rewrite (edges_filter_length G _ (build_wf _)).
    destruct (filter _ (nx.edge_list G)) as [| [k x] es] eqn:E; [reflexivity |].
    assert (Hin : In (k, x) (filter (fun e : nx.edge_key * Z => (1 <? snd e)%Z)
                                    (nx.edge_list G)))
      by (rewrite E; left; reflexivity).
    apply filter_In in Hin. destruct Hin as [Hin Hx]. simpl in Hx.
    apply build_edge_weight in Hin. destruct Hin as [-> _].
    pose proof (proj1 (NoDup_count_occ pair_dec (pairs (w :: ws)))
                      (combine_NoDup _ _ Hnd) k).
    apply Z.ltb_lt in Hx. lia. }
  pose proof (window_size_bounds words) as [_ [He1 He2]].
  pose proof (window_lcc words) as Hlcc.
  repeat split; try assumption; try lia.
  - destruct words as [| w ws]; [simpl in Hlen; lia |].
    rewrite analyze_window_cons. cbv zeta. cbn [lsc].
    apply (singleton_components (w :: ws) Hnd Hlen).
  - destruct words as [| w ws]; [simpl in Hlen; lia |].
    rewrite analyze_window_cons. cbv zeta. cbn [loops]. unfold count_loops.
    rewrite (no_cycles (w :: ws) Hnd). simpl. f_equal.
    rewrite selfloops_repeated.
    destruct (repeated_tokens (w :: ws)) as [| t ts] eqn:E; [reflexivity |].
    assert (Ht : In t (repeated_tokens (w :: ws))) by (rewrite E; left; reflexivity).
    apply repeated_tokens_In in Ht. apply (pairs_step _ Hnd) in Ht. lia.
Qed.

Lemma repetition_free_window_witness :
  nodes (analyze_window ["all"; "good"; "things"; "end"]) = 4
  /\ edges (analyze_window ["all"; "good"; "things"; "end"]) = 4 - 1
  /\ lsc (analyze_window ["all"; "good"; "things"; "end"]) = 1
  /\ lcc (analyze_window ["all"; "good"; "things"; "end"]) = 4
  /\ loops (analyze_window ["all"; "good"; "things"; "end"]) = mkLoops 0 0 0
  /\ parallel_edges (analyze_window ["all"; "good"; "things"; "end"]) = 0.
Proof.
  apply (repetition_free_window ["all"; "good"; "things"; "end"]).
  - repeat constructor; simpl; intuition discriminate.
  - simpl. lia.
Defined.
